(** * Hydroform function manager and triggers operator

    A shallow embedding of
      - package [manager]  (Do, manageOperators, useOperator, purgeParents,
        getDryRunFlag, ownerReferenceCallback), and
      - package [operator] (triggersOperator.Apply / Delete, findOwnerID,
        mergeMap)
    together with the properties of the orchestration that the design
    document states about them.

    Conventions of the embedding
      - a Go [error] value is [option error]; [None] is [nil];
      - a Go slice is a [list] (a nil slice and an empty slice are both [[]]);
      - a Go [map[string]string] is [option (gmap string string)], [None]
        being the nil map;
      - a Go [map[string]interface{}] held by an [Unstructured] is a reference:
        it is a location into a store of object contents, so that two copies
        of the same [Unstructured] struct alias the same content;
      - operators are programs ([Script]) whose only effects are reads and
        writes of the state visible to operators and the firing of callbacks;
        the manager runs them over a [World] that also holds the owner
        reference accumulators and the record of the calls the manager made. *)

From stdpp Require Import base option list gmap strings fin_maps.

Open Scope string_scope.
Open Scope list_scope.

(** ** Errors *)

(** [errors.New] and [errors.Wrap] of github.com/pkg/errors. *)
Inductive error : Type :=
| errors_New (msg : string)
| errors_Wrap (cause : error) (msg : string).

#[global] Instance error_eq_dec : EqDecision error.
Proof. solve_decision. Defined.

(** ** Kubernetes metadata (k8s.io/apimachinery/pkg/apis/meta/v1) *)

Record OwnerReference : Type := mkOwnerReference {
  APIVersion : string;
  Kind : string;
  Name : string;
  UID : string
}.

#[global] Instance OwnerReference_eq_dec : EqDecision OwnerReference.
Proof. solve_decision. Defined.

Inductive DeletionPropagation : Type :=
| DeletePropagationOrphan
| DeletePropagationBackground
| DeletePropagationForeground.

Definition DryRunAll : string := "All".

(** [context.Context]: [context.Background()] is never cancelled; any other
    context is derived from a parent and may have been cancelled. *)
Inductive Context : Type :=
| context_Background
| context_WithCancel (parent : Context) (cancelled : bool).

Fixpoint context_cancelled (ctx : Context) : bool :=
  match ctx with
  | context_Background => false
  | context_WithCancel parent c => c || context_cancelled parent
  end.

(** ** Package client: status entries *)

(** Modelled from the spec: the status kind enumeration of package [client]
    (section 6: [Applied], [ApplyFailed], [Deleted], [DeleteFailed], possibly
    extended by further kinds); the source only names
    [StatusTypeApplyFailed] and [StatusTypeDeleteFailed]. *)
Inductive StatusType : Type :=
| StatusTypeApplied
| StatusTypeApplyFailed
| StatusTypeDeleted
| StatusTypeDeleteFailed
| StatusTypeOther (name : string).

#[global] Instance StatusType_eq_dec : EqDecision StatusType.
Proof. solve_decision. Defined.

(** Modelled from the spec: [client.PostStatusEntry], the result of one
    item's apply or delete: a status kind and the identity of the item
    (section 3, Status Entry). *)
Record PostStatusEntry : Type := mkPostStatusEntry {
  entryStatusType : StatusType;
  GetAPIVersion : string;
  GetKind : string;
  GetName : string;
  GetUID : string
}.

(** ** Unstructured objects *)

Abbreviation loc := nat (only parsing).

(** The content of a [map[string]interface{}] of an unstructured object:
    the two metadata fields the operators touch, and every other field. *)
Record Content : Type := mkContent {
  metadata_labels : option (gmap string string);
  metadata_ownerReferences : option (list OwnerReference);
  fields : gmap string string
}.

(** [unstructured.Unstructured] is a struct with one field, [Object], of map
    type: copying the struct copies the reference. [None] is the nil map. *)
Record Unstructured : Type := mkUnstructured {
  Object : option loc
}.

(** A value of type [interface{}] handed to a callback. *)
Inductive Value : Type :=
| VStatusEntry (entry : PostStatusEntry)
| VUnstructured (u : Unstructured)
| VOther (description : string).

Section Hydroform.

(** Everything outside the process: the remote object store and whatever
    the caller's callbacks observe or record. *)
Context {Ext : Type}.

(** The [client.Client] handle of an operator. *)
Context {Client : Type}.

(** The state operators and callbacks can read and write. *)
Record OpState : Type := mkOpState {
  objects : list Content;
  remote : Ext
}.

(** ** Callbacks

    [type Callback = func(interface{}, error) error]. A callback is either
    one supplied by the caller, or the closure built by
    [ownerReferenceCallback], which captures the address of an
    [OwnerReferenceList]. *)
Inductive Callback : Type :=
| UserCb (f : Value → option error → OpState → option error * OpState)
| OwnerRefCb (list : loc).

Record Callbacks : Type := mkCallbacks {
  Pre : list Callback;
  Post : list Callback
}.

(** [operator.Options], [operator.ApplyOptions], [operator.DeleteOptions]. *)
Record OperatorOptions : Type := mkOperatorOptions {
  opt_DryRun : list string;
  opt_Callbacks : Callbacks
}.

Record ApplyOptions : Type := mkApplyOptions {
  OwnerReferences : list OwnerReference;
  apply_Options : OperatorOptions
}.

Record DeleteOptions : Type := mkDeleteOptions {
  delete_DeletionPropagation : DeletionPropagation;
  delete_Options : OperatorOptions
}.

(** ** Operator programs *)

Inductive Script (R : Type) : Type :=
| Ret (r : R)
| Get (k : OpState → Script R)
| Put (s : OpState) (k : Script R)
| Fire (cb : Callback) (v : Value) (err : option error)
       (k : option error → Script R).

Arguments Ret {R} r.
Arguments Get {R} k.
Arguments Put {R} s k.
Arguments Fire {R} cb v err k.

Fixpoint script_bind {A B : Type} (f : A → Script B) (m : Script A) : Script B :=
  match m with
  | Ret r => f r
  | Get k => Get (λ s, script_bind f (k s))
  | Put s k => Put s (script_bind f k)
  | Fire cb v err k => Fire cb v err (λ r, script_bind f (k r))
  end.

#[global] Instance Script_ret : MRet Script := λ _ r, Ret r.
#[global] Instance Script_bind : MBind Script := λ _ _ f m, script_bind f m.

(** The [Operator] interface. [opId] is the identity of the interface value
    (operators are compared by identity when they key the forest). *)
Record Operator : Type := mkOperator {
  opId : nat;
  opApply : Context → ApplyOptions → Script (option error);
  opDelete : Context → DeleteOptions → Script (option error)
}.

(** ** The world the manager runs in *)

Abbreviation OwnerReferenceList := (list OwnerReference) (only parsing).

(** A completed call of the manager into an operator, with its result. *)
Inductive Event : Type :=
| EvApply (opr : Operator) (ctx : Context) (opts : ApplyOptions)
          (result : option error)
| EvDelete (opr : Operator) (ctx : Context) (opts : DeleteOptions)
           (result : option error).

Record World : Type := mkWorld {
  ops : OpState;
  refLists : list OwnerReferenceList;
  calls : list Event
}.

Definition Eff (A : Type) : Type := World → A * World.

#[global] Instance Eff_ret : MRet Eff := λ _ a w, (a, w).
#[global] Instance Eff_bind : MBind Eff :=
  λ _ _ f m w, let '(a, w') := m w in f a w'.

Definition set_ops (s : OpState) (w : World) : World :=
  mkWorld s (refLists w) (calls w).

Definition record (ev : Event) : Eff unit :=
  λ w, (tt, mkWorld (ops w) (refLists w) (calls w ++ [ev])).

(** ** Package manager *)

Inductive OnErrorPolicy : Type :=
| StopOnError
| PurgeOnError.

#[global] Instance OnErrorPolicy_eq_dec : EqDecision OnErrorPolicy.
Proof. solve_decision. Defined.

Record Options : Type := mkOptions {
  Callbacks_ : Callbacks;
  OnError : OnErrorPolicy;
  DryRun : bool;
  SetOwnerReferences : bool
}.

(** The closure of [ownerReferenceCallback] (the function literal bound to
    the local [ownerReferenceCallback]), with [list] the captured pointer. *)
Definition ownerReferenceCallback_func (list : loc) (v : Value)
    (err : option error) : Eff (option error) := λ w,
  match v with
  | VStatusEntry entry =>
      if bool_decide (err = None)
         && bool_decide (entryStatusType entry ≠ StatusTypeApplyFailed)
         && bool_decide (entryStatusType entry ≠ StatusTypeDeleteFailed)
      then
        (err, mkWorld (ops w)
                (alter (λ l, l ++ [ {| APIVersion := GetAPIVersion entry;
                                       Kind := GetKind entry;
                                       Name := GetName entry;
                                       UID := GetUID entry |} ])
                       list (refLists w))
                (calls w))
      else (err, w)
  | _ => (Some (errors_New "can't parse interface{} to StatusEntry interface"), w)
  end.

Definition callCallback (cb : Callback) (v : Value) (err : option error)
  : Eff (option error) :=
  match cb with
  | UserCb f => λ w, let '(r, s) := f v err (ops w) in (r, set_ops s w)
  | OwnerRefCb list => ownerReferenceCallback_func list v err
  end.

Fixpoint run {R : Type} (p : Script R) : Eff R :=
  match p with
  | Ret r => mret r
  | Get k => λ w, run (k (ops w)) w
  | Put s k => λ w, run k (set_ops s w)
  | Fire cb v err k => r ← callCallback cb v err; run (k r)
  end.


Definition callApply (opr : Operator) (ctx : Context) (opts : ApplyOptions)
  : Eff (option error) :=
  err ← run (opApply opr ctx opts);
  _ ← record (EvApply opr ctx opts err);
  mret err.

Definition callDelete (opr : Operator) (ctx : Context) (opts : DeleteOptions)
  : Eff (option error) :=
  err ← run (opDelete opr ctx opts);
  _ ← record (EvDelete opr ctx opts err);
  mret err.

Definition getDryRunFlag (dryRun : bool) : list string :=
  let flags := [] in
  if dryRun then flags ++ [DryRunAll] else flags.

Definition ownerReferenceCallback (callbacks : Callbacks) (list : option loc)
  : Callbacks :=
  match list with
  | None => callbacks
  | Some l => mkCallbacks (Pre callbacks) (Post callbacks ++ [OwnerRefCb l])
  end.

(** [&newRefs]: the local list gets a cell of its own once its address is
    taken for the closure. *)
Definition addressOf (newRefs : OwnerReferenceList) : Eff loc :=
  λ w, (length (refLists w),
        mkWorld (ops w) (refLists w ++ [newRefs]) (calls w)).

Definition deref (newRefs : OwnerReferenceList) (list : option loc)
  : Eff OwnerReferenceList :=
  λ w, match list with
       | None => (newRefs, w)
       | Some l => (default newRefs (refLists w !! l), w)
       end.

(** [useOperator]. In [return newRefs, opr.Apply(ctx, applyOpts)] the list is
    read after the call has returned (the gc compiler evaluates the call
    before it loads the variable, which the callback may have appended to
    through the captured pointer); the propagation of owner references to
    children relies on it. *)
Definition useOperator (ctx : Context) (opr : option Operator)
    (options : Options) (references : list OwnerReference)
  : Eff (OwnerReferenceList * option error) :=
  let newRefs : OwnerReferenceList := [] in
  match opr with
  | None => mret (newRefs, None)
  | Some opr =>
      '(callbacks, list) ←
        (if SetOwnerReferences options
         then list ← addressOf newRefs;
              mret (ownerReferenceCallback (Callbacks_ options) (Some list),
                    Some list)
         else mret (Callbacks_ options, None));
      let applyOpts :=
        {| OwnerReferences := references;
           apply_Options :=
             {| opt_DryRun := getDryRunFlag (DryRun options);
                opt_Callbacks := callbacks |} |} in
      err ← callApply opr ctx applyOpts;
      newRefs ← deref newRefs list;
      mret (newRefs, err)
  end.

Abbreviation Entry := (option Operator * list (option Operator))%type (only parsing).

(** The inner loop of [manageOperators], over the children of one parent. *)
Fixpoint manageChildren (ctx : Context) (options : Options)
    (references : list OwnerReference) (children : list (option Operator))
  : Eff (option error) :=
  match children with
  | [] => mret None
  | resource :: children =>
      '(_, err) ← useOperator ctx resource options references;
      match err with
      | Some e => mret (Some e)
      | None => manageChildren ctx options references children
      end
  end.

(** [manageOperators], over the entries of the forest in the order in which
    [range m.operators] yields them. *)
Fixpoint manageOperators (ctx : Context) (options : Options)
    (entries : list Entry) : Eff (option error) :=
  match entries with
  | [] => mret None
  | (parent, children) :: entries =>
      '(references, err) ← useOperator ctx parent options [];
      match err with
      | Some e => mret (Some e)
      | None =>
          err ← manageChildren ctx options references children;
          match err with
          | Some e => mret (Some e)
          | None => manageOperators ctx options entries
          end
      end
  end.

Fixpoint purgeLoop (deleteOptions : DeleteOptions)
    (keys : list (option Operator)) : Eff unit :=
  match keys with
  | [] => mret tt
  | None :: keys => purgeLoop deleteOptions keys
  | Some opr :: keys =>
      _ ← callDelete opr context_Background deleteOptions;
      purgeLoop deleteOptions keys
  end.

(** [purgeParents], over the keys of the forest in the order in which its own
    [range m.operators] yields them. *)
Definition purgeParents (options : Options) (entries : list Entry) : Eff unit :=
  let deleteOptions :=
    {| delete_DeletionPropagation := DeletePropagationForeground;
       delete_Options :=
         {| opt_DryRun := getDryRunFlag (DryRun options);
            opt_Callbacks := Callbacks_ options |} |} in
  purgeLoop deleteOptions entries.*1.

(** The forest: the entries of [map[operator.Operator][]operator.Operator].
    The keys of a map are pairwise distinct, and each [range] over it yields
    its entries in an order of its own. *)
Record manager : Type := mkManager {
  operators : list Entry
}.

Definition key_id (opr : option Operator) : option nat := opId <$> opr.

Definition manager_wf (m : manager) : Prop :=
  NoDup (key_id <$> (operators m).*1).

Definition range_of (m : manager) (order : list Entry) : Prop :=
  order ≡ₚ operators m.

(** [Do]; [applyOrder] and [purgeOrder] are the iteration orders of the two
    [range] loops it reaches. *)
Definition Do (applyOrder purgeOrder : list Entry) (ctx : Context)
    (options : Options) : Eff (option error) :=
  err ← manageOperators ctx options applyOrder;
  match err with
  | Some e =>
      _ ← (if decide (OnError options = PurgeOnError)
           then purgeParents options purgeOrder
           else mret tt);
      mret (Some e)
  | None => mret None
  end.


(** ** Package operator: the triggers operator *)

(** *** Methods of [unstructured.Unstructured] *)

Definition content_empty : Content :=
  {| metadata_labels := None; metadata_ownerReferences := None; fields := ∅ |}.

Definition readObject (s : OpState) (u : Unstructured) : option Content :=
  l ← Object u; objects s !! l.

(** [u.GetLabels()]: a fresh copy of metadata.labels, nil when absent. *)
Definition Unstructured_GetLabels (u : Unstructured)
  : Script (option (gmap string string)) :=
  Get (λ s, Ret (readObject s u ≫= metadata_labels)).

(** Writes through a pointer receiver first make the map when it is nil
    ([if u.Object == nil { u.Object = make(...) }]), then update it in place. *)
Definition ensureObject (u : Unstructured) : Script (Unstructured * loc) :=
  match Object u with
  | Some l => Ret (u, l)
  | None =>
      Get (λ s,
        let l := length (objects s) in
        Put (mkOpState (objects s ++ [content_empty]) (remote s))
            (Ret (mkUnstructured (Some l), l)))
  end.

Definition updateObject (l : loc) (f : Content → Content) : Script unit :=
  Get (λ s, Put (mkOpState (alter f l (objects s)) (remote s)) (Ret tt)).

(** [u.SetOwnerReferences(references)]; a nil slice removes the field. *)
Definition Unstructured_SetOwnerReferences (u : Unstructured)
    (references : list OwnerReference) : Script Unstructured :=
  match references with
  | [] =>
      match Object u with
      | None => Ret u
      | Some l =>
          _ ← updateObject l (λ c,
                mkContent (metadata_labels c) None (fields c));
          Ret u
      end
  | _ =>
      '(u, l) ← ensureObject u;
      _ ← updateObject l (λ c,
            mkContent (metadata_labels c) (Some references) (fields c));
      Ret u
  end.

(** [u.SetLabels(labels)]; a nil map removes the field. *)
Definition Unstructured_SetLabels (u : Unstructured)
    (labels : option (gmap string string)) : Script Unstructured :=
  match labels with
  | None =>
      match Object u with
      | None => Ret u
      | Some l =>
          _ ← updateObject l (λ c,
                mkContent None (metadata_ownerReferences c) (fields c));
          Ret u
      end
  | Some m =>
      '(u, l) ← ensureObject u;
      _ ← updateObject l (λ c,
            mkContent (Some m) (metadata_ownerReferences c) (fields c));
      Ret u
  end.

(** [u.SetUnstructuredContent(content)] is [u.Object = content]: it rebinds
    the field of the struct it is called on and touches no map. *)
Definition Unstructured_SetUnstructuredContent (u : Unstructured)
    (content : option loc) : Unstructured :=
  mkUnstructured content.

(** *** Helpers of package operator that the operator calls *)

(** Modelled from the spec: [fireCallbacks] of package operator is called by
    the triggers operator but is not among the sources. Section 3: a callback
    returning an error aborts and that error propagates; section 4.5: "Any
    callback or apply error aborts processing of the remaining items and is
    returned". The callbacks are fired in order on the value and the error of
    the underlying operation; the first error a callback returns is the
    result; when no callback objects, the error of the operation is. *)
Fixpoint fireCallbacks (v : Value) (err : option error) (cbs : list Callback)
  : Script (option error) :=
  match cbs with
  | [] => Ret err
  | callback :: cbs =>
      Fire callback v err (λ callbackErr,
        match callbackErr with
        | Some e => Ret (Some e)
        | None => fireCallbacks v err cbs
        end)
  end.

(** [wipeRemoved], [applyObject] and [deleteObject] reach the remote store
    through the client; they are taken as given. [applyObject] returns a
    pointer to an object, the status entry and the error of the call. *)
Variable wipeRemoved :
  Context → Client → list Unstructured → string → OperatorOptions →
  Script (option error).
Variable applyObject :
  Context → Client → Unstructured → list string →
  Script (Unstructured * PostStatusEntry * option error).
Variable deleteObject :
  Context → Client → Unstructured → DeleteOptions →
  Script (PostStatusEntry * option error).

(** *** The operator *)

Definition message : string := "ownerID".

Record triggersOperator : Type := mkTriggersOperator {
  items : list Unstructured;
  client : Client
}.

Definition errNotFound : error := errors_New "not found".

(** seeks for uid of first Function kind or returns error *)
Fixpoint findOwnerID (refs : list OwnerReference) : string * bool :=
  match refs with
  | [] => ("", false)
  | ref :: refs =>
      if decide (Kind ref = "Function") then (UID ref, true)
      else findOwnerID refs
  end.

(** [mergeMap]: when [l] is not nil, every binding of [r] is stored in [l],
    which is returned. *)
Definition mergeMap (l r : option (gmap string string))
  : option (gmap string string) :=
  match l with
  | None => r
  | Some l =>
      Some (match r with
            | None => l
            | Some r => map_fold (λ k v l, <[k:=v]> l) l r
            end)
  end.

(** Lines 38-42 of [Apply]: owner references and the tracking label are
    written to the loop variable [u]. *)
Definition labelItem (opts : ApplyOptions) (ownerID : string)
    (u : Unstructured) : Script Unstructured :=
  u ← Unstructured_SetOwnerReferences u (OwnerReferences opts);
  labels ← Unstructured_GetLabels u;
  let newLabels := mergeMap labels (Some {[ message := ownerID ]}) in
  Unstructured_SetLabels u newLabels.

(** One iteration of the loop of [Apply] on the loop variable [u], a copy of
    the element of [t.items]. The result is the error that leaves the
    function, if any, and the value of [u] when the iteration ends. *)
Definition applyItem (t : triggersOperator) (ctx : Context)
    (opts : ApplyOptions) (ownerID : string) (u : Unstructured)
  : Script (Unstructured * option error) :=
  u ← labelItem opts ownerID u;
  err ← fireCallbacks (VUnstructured u) None
          (Pre (opt_Callbacks (apply_Options opts)));
  match err with
  | Some e => Ret (u, Some e)
  | None =>
      '(new1, statusEntry, err) ←
        applyObject ctx (client t) u (opt_DryRun (apply_Options opts));
      err ← fireCallbacks (VStatusEntry statusEntry) err
              (Post (opt_Callbacks (apply_Options opts)));
      match err with
      | Some e => Ret (u, Some e)
      | None =>
          let u := Unstructured_SetUnstructuredContent u (Object new1) in
          Ret (u, None)
      end
  end.

(** [for _, u := range t.items]: each iteration works on its own copy [u];
    the copy is dropped when the iteration ends. *)
Fixpoint applyItems (t : triggersOperator) (ctx : Context)
    (opts : ApplyOptions) (ownerID : string) (us : list Unstructured)
  : Script (option error) :=
  match us with
  | [] => Ret None
  | u :: us =>
      '(_, err) ← applyItem t ctx opts ownerID u;
      match err with
      | Some e => Ret (Some e)
      | None => applyItems t ctx opts ownerID us
      end
  end.

Definition triggersOperator_Apply (t : triggersOperator) (ctx : Context)
    (opts : ApplyOptions) : Script (option error) :=
  let '(ownerID, found) := findOwnerID (OwnerReferences opts) in
  if negb found then Ret (Some (errors_Wrap errNotFound message))
  else
    err ← wipeRemoved ctx (client t) (items t) ownerID (apply_Options opts);
    match err with
    | Some e => Ret (Some e)
    | None => applyItems t ctx opts ownerID (items t)
    end.

Definition deleteItem (t : triggersOperator) (ctx : Context)
    (opts : DeleteOptions) (u : Unstructured) : Script (option error) :=
  err ← fireCallbacks (VUnstructured u) None
          (Pre (opt_Callbacks (delete_Options opts)));
  match err with
  | Some e => Ret (Some e)
  | None =>
      '(state, err) ← deleteObject ctx (client t) u opts;
      fireCallbacks (VStatusEntry state) err
        (Post (opt_Callbacks (delete_Options opts)))
  end.

Fixpoint deleteItems (t : triggersOperator) (ctx : Context)
    (opts : DeleteOptions) (us : list Unstructured) : Script (option error) :=
  match us with
  | [] => Ret None
  | u :: us =>
      err ← deleteItem t ctx opts u;
      match err with
      | Some e => Ret (Some e)
      | None => deleteItems t ctx opts us
      end
  end.

Definition triggersOperator_Delete (t : triggersOperator) (ctx : Context)
    (opts : DeleteOptions) : Script (option error) :=
  deleteItems t ctx opts (items t).


(** ** Notions used to state the properties *)

(** [errors.Cause]: the innermost error of a chain of wraps. *)
Fixpoint errors_Cause (e : error) : error :=
  match e with
  | errors_New _ => e
  | errors_Wrap cause _ => errors_Cause cause
  end.

(** The identity fields of a status entry, as an owner reference. *)
Definition entryOwnerReference (entry : PostStatusEntry) : OwnerReference :=
  {| APIVersion := GetAPIVersion entry; Kind := GetKind entry;
     Name := GetName entry; UID := GetUID entry |}.

(** The value bound to a key in a map of labels that may be nil. *)
Definition label (labels : option (gmap string string)) (k : string)
  : option string :=
  m ← labels; m !! k.

(** The labels of the object [u] refers to, in state [s]. *)
Definition labelsOf (s : OpState) (u : Unstructured)
  : option (gmap string string) :=
  readObject s u ≫= metadata_labels.

(** The reference held by [u] points into the store. *)
Definition allocated (s : OpState) (u : Unstructured) : Prop :=
  match Object u with
  | None => True
  | Some l => l < length (objects s)
  end.

(** ** Basic facts about running programs *)

Lemma run_bind {A B : Type} (m : Script A) (f : A → Script B) (w : World) :
  run (m ≫= f) w = let '(a, w') := run m w in run (f a) w'.
Proof.
  revert w. induction m as [r | k IH | s k IH | cb v err k IH]; intros w.
  - simpl. reflexivity.
  - simpl. apply IH.
  - simpl. apply IH.
  - change (run (Fire cb v err k ≫= f) w)
      with (let '(r, w') := callCallback cb v err w in run (k r ≫= f) w').
    simpl. unfold mbind at 2. unfold Eff_bind.
    destruct (callCallback cb v err w) as [r w']. apply IH.
Qed.

Lemma run_calls {R : Type} (p : Script R) (w : World) :
  calls (run p w).2 = calls w.
Proof.
  revert w. induction p as [r | k IH | s k IH | cb v err k IH]; intros w; simpl.
  - reflexivity.
  - apply IH.
  - rewrite IH. reflexivity.
  - unfold mbind, Eff_bind.
    destruct (callCallback cb v err w) as [r w'] eqn:E.
    rewrite IH. destruct cb as [f | l]; simpl in E.
    + destruct (f v err (ops w)) as [r' s']. inversion E; subst. reflexivity.
    + unfold ownerReferenceCallback_func in E.
      destruct v; try (inversion E; subst; reflexivity).
      destruct (_ && _); inversion E; subst; reflexivity.
Qed.


(** ** mergeMap and the tracking label *)

Lemma map_fold_insert_lookup (l r : gmap string string) (k : string) :
  map_fold (λ k v l, <[k:=v]> l) l r !! k
  = match r !! k with Some v => Some v | None => l !! k end.
Proof.
  revert k.
  apply (map_fold_weak_ind
           (λ acc (m : gmap string string), ∀ k,
              acc !! k = match m !! k with Some v => Some v | None => l !! k end)).
  - intros k. rewrite lookup_empty. reflexivity.
  - intros i x m acc Hfresh IH k.
    destruct (decide (i = k)) as [-> | Hne].
    + rewrite !lookup_insert_eq. reflexivity.
    + rewrite !lookup_insert_ne by assumption. apply IH.
Qed.

Lemma mergeMap_label (l r : option (gmap string string)) (k : string) :
  label (mergeMap l r) k
  = match label r k with Some v => Some v | None => label l k end.
Proof.
  destruct l as [l |], r as [r |]; simpl.
  - apply map_fold_insert_lookup.
  - reflexivity.
  - destruct (r !! k); reflexivity.
  - reflexivity.
Qed.

Lemma run_GetLabels (u : Unstructured) (w : World) :
  run (Unstructured_GetLabels u) w = (labelsOf (ops w) u, w).
Proof. reflexivity. Qed.

Lemma run_SetLabels (u : Unstructured) (m : gmap string string) (w : World) :
  allocated (ops w) u →
  let '(u', w') := run (Unstructured_SetLabels u (Some m)) w in
  labelsOf (ops w') u' = Some m
  ∧ allocated (ops w') u'
  ∧ (Object u ≠ None → u' = u).
Proof.
  unfold allocated, labelsOf, readObject.
  destruct u as [[l |]]; intros Halloc.
  - destruct (lookup_lt_is_Some_2 _ _ Halloc) as [c Hc].
    cbn. rewrite list_lookup_alter_eq, length_alter, Hc. auto.
  - cbn. rewrite list_lookup_alter_eq, length_alter, lookup_app_r, Nat.sub_diag by lia.
    rewrite length_app. cbn. split; [reflexivity | split; [lia | congruence]].
Qed.

Lemma run_SetOwnerReferences (u : Unstructured) (refs : list OwnerReference)
    (w : World) :
  allocated (ops w) u →
  let '(u', w') := run (Unstructured_SetOwnerReferences u refs) w in
  labelsOf (ops w') u' = labelsOf (ops w) u
  ∧ allocated (ops w') u'
  ∧ (Object u ≠ None → u' = u).
Proof.
  unfold allocated, labelsOf, readObject.
  destruct u as [[l |]], refs as [| ref refs]; intros Halloc.
  - destruct (lookup_lt_is_Some_2 _ _ Halloc) as [c Hc].
    cbn. rewrite list_lookup_alter_eq, length_alter, Hc. auto.
  - destruct (lookup_lt_is_Some_2 _ _ Halloc) as [c Hc].
    cbn. rewrite list_lookup_alter_eq, length_alter, Hc. auto.
  - cbn. auto.
  - cbn. rewrite list_lookup_alter_eq, length_alter, lookup_app_r, Nat.sub_diag by lia.
    rewrite length_app. cbn. split; [reflexivity | split; [lia | congruence]].
Qed.

Lemma run_labelItem (opts : ApplyOptions) (ownerID : string)
    (u : Unstructured) (w : World) :
  allocated (ops w) u →
  let '(u', w') := run (labelItem opts ownerID u) w in
  labelsOf (ops w') u'
  = mergeMap (labelsOf (ops w) u) (Some {[ message := ownerID ]})
  ∧ allocated (ops w') u'
  ∧ (Object u ≠ None → u' = u).
Proof.
  intros Halloc. unfold labelItem. rewrite run_bind.
  pose proof (run_SetOwnerReferences u (OwnerReferences opts) w Halloc) as H1.
  destruct (run (Unstructured_SetOwnerReferences u (OwnerReferences opts)) w)
    as [u1 w1].
  destruct H1 as (Hl1 & Ha1 & Hu1).
  rewrite run_bind, run_GetLabels, Hl1.
  assert (∃ m, mergeMap (labelsOf (ops w) u) (Some {[ message := ownerID ]})
               = Some m) as [m Hm].
  { destruct (labelsOf (ops w) u); simpl; eauto. }
  rewrite Hm.
  pose proof (run_SetLabels u1 m w1 Ha1) as H2.
  destruct (run (Unstructured_SetLabels u1 (Some m)) w1) as [u2 w2].
  destruct H2 as (Hl2 & Ha2 & Hu2).
  split; [assumption | split; [assumption |]].
  intros Hne. specialize (Hu1 Hne). subst u1. auto.
Qed.
(** ** The owner the triggers are linked to *)

Lemma findOwnerID_skip (pre rest : list OwnerReference) :
  Forall (λ r, Kind r ≠ "Function") pre →
  findOwnerID (pre ++ rest) = findOwnerID rest.
Proof.
  induction 1 as [| r pre Hr _ IH]; simpl.
  - reflexivity.
  - destruct (decide (Kind r = "Function")); [contradiction | exact IH].
Qed.

Lemma findOwnerID_none (refs : list OwnerReference) :
  Forall (λ r, Kind r ≠ "Function") refs →
  findOwnerID refs = ("", false).
Proof.
  intros H. rewrite <- (app_nil_r refs). rewrite findOwnerID_skip by assumption.
  reflexivity.
Qed.

(** C10. The owner identifier that [Apply] uses is the UID of the first
    reference, in list order, whose Kind is exactly the string "Function":
    references of any other kind before it are skipped, later references
    (of kind "Function" or not) are not looked at; [Apply] hands this
    identifier to the wipe and to the loop over the items, and the loop
    writes it as the value of the tracking label of each item. *)
Theorem findOwnerID_first_Function
    (pre : list OwnerReference) (ref : OwnerReference)
    (post : list OwnerReference) :
  Forall (λ r, Kind r ≠ "Function") pre →
  Kind ref = "Function" →
  findOwnerID (pre ++ ref :: post) = (UID ref, true)
  ∧ (∀ t ctx options,
       let opts := mkApplyOptions (pre ++ ref :: post) options in
       triggersOperator_Apply t ctx opts
       = (err ← wipeRemoved ctx (client t) (items t) (UID ref) options;
          match err with
          | Some e => Ret (Some e)
          | None => applyItems t ctx opts (UID ref) (items t)
          end))
  ∧ (∀ options u w,
       allocated (ops w) u →
       let opts := mkApplyOptions (pre ++ ref :: post) options in
       let '(u', w') := run (labelItem opts (UID ref) u) w in
       label (labelsOf (ops w') u') message = Some (UID ref)).
Proof.
  intros Hpre Href.
  assert (findOwnerID (pre ++ ref :: post) = (UID ref, true)) as Hfind.
  { rewrite findOwnerID_skip by assumption. simpl.
    destruct (decide (Kind ref = "Function")); [reflexivity | contradiction]. }
  split; [exact Hfind | split].
  - intros t ctx options opts. unfold triggersOperator_Apply.
    subst opts. simpl. rewrite Hfind. reflexivity.
  - intros options u w Halloc opts.
    pose proof (run_labelItem opts (UID ref) u w Halloc) as H.
    destruct (run (labelItem opts (UID ref) u) w) as [u' w'].
    destruct H as (Hl & _). rewrite Hl, mergeMap_label. simpl.
    rewrite lookup_singleton_eq. reflexivity.
Qed.

(** C7. When no inherited owner reference has kind "Function" (in
    particular when there is none at all), [Apply] is the program that
    returns the error "ownerID: not found" at once: it wipes nothing,
    applies no item and fires no callback, so running it leaves the world as
    it was. *)
Theorem Apply_no_Function_owner_not_found (refs : list OwnerReference) :
  Forall (λ r, Kind r ≠ "Function") refs →
  ∀ t ctx options,
    let opts := mkApplyOptions refs options in
    triggersOperator_Apply t ctx opts
    = Ret (Some (errors_Wrap errNotFound message))
    ∧ errors_Cause (errors_Wrap errNotFound message) = errNotFound
    ∧ (∀ w, run (triggersOperator_Apply t ctx opts) w
            = (Some (errors_Wrap errNotFound message), w)).
Proof.
  intros Hrefs t ctx options opts.
  assert (triggersOperator_Apply t ctx opts
          = Ret (Some (errors_Wrap errNotFound message))) as HA.
  { unfold triggersOperator_Apply. subst opts. simpl.
    rewrite findOwnerID_none by assumption. reflexivity. }
  split; [exact HA | split; [reflexivity |]].
  intros w. rewrite HA. reflexivity.
Qed.

(** C9. [mergeMap existing desired] binds every key of the desired map to
    the desired value, and every key that only the existing map binds to its
    existing value; in [Apply], where the desired map is the single binding
    of the tracking label "ownerID" to the owner identifier, the labels of the item
    afterwards bind "ownerID" to the owner identifier and every other key as
    before. *)
Theorem mergeMap_desired_overwrites
    (existing desired : option (gmap string string)) :
  (∀ k v, label desired k = Some v →
          label (mergeMap existing desired) k = Some v)
  ∧ (∀ k, label desired k = None →
          label (mergeMap existing desired) k = label existing k)
  ∧ (∀ opts ownerID u w,
       allocated (ops w) u →
       labelsOf (ops w) u = existing →
       let '(u', w') := run (labelItem opts ownerID u) w in
       label (labelsOf (ops w') u') message = Some ownerID
       ∧ (∀ k, k ≠ message →
               label (labelsOf (ops w') u') k = label existing k)).
Proof.
  split; [| split].
  - intros k v Hk. rewrite mergeMap_label, Hk. reflexivity.
  - intros k Hk. rewrite mergeMap_label, Hk. reflexivity.
  - intros opts ownerID u w Halloc Hex.
    pose proof (run_labelItem opts ownerID u w Halloc) as H.
    destruct (run (labelItem opts ownerID u) w) as [u' w'].
    destruct H as (Hl & _). rewrite Hl, Hex. split.
    + rewrite mergeMap_label. simpl. rewrite lookup_singleton_eq. reflexivity.
    + intros k Hk. rewrite mergeMap_label. simpl.
      rewrite lookup_singleton_ne by congruence. reflexivity.
Qed.

(** ** The owner reference callback *)

(** C6. The callback that [ownerReferenceCallback] appends to the Post chain,
    called with a value and an error. On a status entry with a non-nil error
    or with status [ApplyFailed] or [DeleteFailed] it appends nothing and
    returns the error it was given; on a value that is not a status entry it
    returns a non-nil error (the message says the value cannot be read as a
    status entry) and appends nothing; on any other status entry it appends
    the identity of the entry to the list and returns the nil error it was
    given. *)
Theorem ownerReferenceCallback_harvest
    (list : loc) (v : Value) (err : option error) (w : World) :
  (∀ entry,
     v = VStatusEntry entry →
     err ≠ None ∨ entryStatusType entry = StatusTypeApplyFailed
       ∨ entryStatusType entry = StatusTypeDeleteFailed →
     callCallback (OwnerRefCb list) v err w = (err, w))
  ∧ ((∀ entry, v ≠ VStatusEntry entry) →
     callCallback (OwnerRefCb list) v err w
     = (Some (errors_New "can't parse interface{} to StatusEntry interface"), w))
  ∧ (∀ entry acc,
       v = VStatusEntry entry →
       err = None →
       entryStatusType entry ≠ StatusTypeApplyFailed →
       entryStatusType entry ≠ StatusTypeDeleteFailed →
       refLists w !! list = Some acc →
       callCallback (OwnerRefCb list) v err w
       = (None,
          mkWorld (ops w)
            (<[list := acc ++ [entryOwnerReference entry]]> (refLists w))
            (calls w)))
  ∧ Post (ownerReferenceCallback (mkCallbacks [] []) (Some list))
    = [OwnerRefCb list].
Proof.
  split; [| split; [| split]].
  - intros entry -> Hfail. simpl. unfold ownerReferenceCallback_func.
    destruct Hfail as [Herr | [Hst | Hst]].
    + rewrite (bool_decide_eq_false_2 _ Herr). reflexivity.
    + rewrite Hst. rewrite andb_comm with (b2 := bool_decide (_ ≠ StatusTypeDeleteFailed)).
      rewrite (bool_decide_eq_false_2 (StatusTypeApplyFailed ≠ StatusTypeApplyFailed))
        by (intros H; apply H; reflexivity).
      rewrite !andb_false_r. reflexivity.
    + rewrite Hst.
      rewrite (bool_decide_eq_false_2 (StatusTypeDeleteFailed ≠ StatusTypeDeleteFailed))
        by (intros H; apply H; reflexivity).
      rewrite !andb_false_r. reflexivity.
  - intros Hv. simpl. unfold ownerReferenceCallback_func.
    destruct v as [entry | u | d]; [destruct (Hv entry); reflexivity | |];
      reflexivity.
  - intros entry acc -> -> H1 H2 Hacc. simpl. unfold ownerReferenceCallback_func.
    rewrite !bool_decide_eq_true_2 by (assumption || reflexivity). simpl.
    do 2 f_equal. unfold entryOwnerReference.
    apply list_eq. intros i. rewrite list_lookup_alter, list_lookup_insert.
    destruct (decide (list = i)) as [<- |].
    + rewrite Hacc. simpl. rewrite decide_True; [reflexivity |].
      split; [reflexivity | eapply lookup_lt_Some; eassumption].
    + rewrite decide_False by tauto. reflexivity.
  - reflexivity.
Qed.

(** ** How the manager calls an operator *)

(** The options [useOperator] builds for [Apply]. *)
Definition applyOptionsFor (options : Options)
    (references : list OwnerReference) (callbacks : Callbacks) : ApplyOptions :=
  {| OwnerReferences := references;
     apply_Options := {| opt_DryRun := getDryRunFlag (DryRun options);
                         opt_Callbacks := callbacks |} |}.

(** The options [purgeParents] builds for [Delete]. *)
Definition deleteOptionsFor (options : Options) : DeleteOptions :=
  {| delete_DeletionPropagation := DeletePropagationForeground;
     delete_Options := {| opt_DryRun := getDryRunFlag (DryRun options);
                          opt_Callbacks := Callbacks_ options |} |}.

(** The world once the list of [useOperator] has a cell of its own. *)
Definition withCell (w : World) : World :=
  mkWorld (ops w) (refLists w ++ [[]]) (calls w).

Definition logged (ev : Event) (w : World) : World :=
  mkWorld (ops w) (refLists w) (calls w ++ [ev]).

Lemma useOperator_nil ctx options references w :
  useOperator ctx None options references w = (([], None), w).
Proof. reflexivity. Qed.

Lemma useOperator_plain ctx opr options references w :
  SetOwnerReferences options = false →
  let opts := applyOptionsFor options references (Callbacks_ options) in
  useOperator ctx (Some opr) options references w
  = let '(err, w1) := run (opApply opr ctx opts) w in
    (([], err), logged (EvApply opr ctx opts err) w1).
Proof.
  intros Hset opts. unfold useOperator. rewrite Hset.
  subst opts. unfold applyOptionsFor, callApply, mbind, Eff_bind. simpl.
  destruct (run _ w) as [err w1]. reflexivity.
Qed.

Lemma useOperator_harvesting ctx opr options references w :
  SetOwnerReferences options = true →
  let list := length (refLists w) in
  let opts := applyOptionsFor options references
                (ownerReferenceCallback (Callbacks_ options) (Some list)) in
  useOperator ctx (Some opr) options references w
  = let '(err, w1) := run (opApply opr ctx opts) (withCell w) in
    ((default [] (refLists w1 !! list), err),
     logged (EvApply opr ctx opts err) w1).
Proof.
  intros Hset list opts. unfold useOperator. rewrite Hset.
  subst opts list.
  unfold applyOptionsFor, callApply, addressOf, withCell, mbind, Eff_bind. simpl.
  destruct (run _ _) as [err w1]. reflexivity.
Qed.

(** ** What a parent's Apply hands to the owner reference callback *)

(** The items an operator program processes, as seen by the callback that
    captured [list]: the value and the error of every firing of that
    callback, in order. *)
Fixpoint firings {R : Type} (list : loc) (p : Script R) (w : World)
  : Datatypes.list (Value * option error) :=
  match p with
  | Ret _ => []
  | Get k => firings list (k (ops w)) w
  | Put s k => firings list k (set_ops s w)
  | Fire cb v err k =>
      let '(r, w') := callCallback cb v err w in
      match cb with
      | OwnerRefCb l => if decide (l = list) then [(v, err)] else []
      | UserCb _ => []
      end ++ firings list (k r) w'
  end.

(** An item has a non-failed status when its call returned no error and its
    status entry is neither [ApplyFailed] nor [DeleteFailed]. *)
Definition nonFailed (item : Value * option error) : option PostStatusEntry :=
  match item with
  | (VStatusEntry entry, None) =>
      match entryStatusType entry with
      | StatusTypeApplyFailed | StatusTypeDeleteFailed => None
      | _ => Some entry
      end
  | _ => None
  end.

Definition nonFailedItems (items : list (Value * option error))
  : list PostStatusEntry :=
  omap nonFailed items.

(** The calls the manager made between two worlds. *)
Definition callsSince (w w' : World) : list Event :=
  drop (length (calls w)) (calls w').

Lemma callCallback_refLists (list : loc) cb v err w acc :
  refLists w !! list = Some acc →
  refLists (callCallback cb v err w).2 !! list
  = Some (acc ++ match cb with
                 | OwnerRefCb l =>
                     if decide (l = list)
                     then entryOwnerReference <$> nonFailedItems [(v, err)]
                     else []
                 | UserCb _ => []
                 end).
Proof.
  intros Hacc. destruct cb as [f | l]; simpl.
  - destruct (f v err (ops w)) as [r s]. simpl. rewrite app_nil_r. exact Hacc.
  - unfold ownerReferenceCallback_func, nonFailedItems.
    destruct v as [entry | u | d]; simpl;
      try (destruct (decide (l = list)); rewrite app_nil_r; exact Hacc).
    destruct err as [e |]; simpl.
    { destruct (decide (l = list)); rewrite app_nil_r; exact Hacc. }
    destruct (entryStatusType entry) eqn:Hst; simpl;
      rewrite ?list_lookup_alter, ?Hacc;
      destruct (decide (l = list)) as [-> |]; simpl;
      rewrite ?Hacc, ?app_nil_r; reflexivity.
Qed.

Lemma run_refLists {R : Type} (list : loc) (p : Script R) (w : World) acc :
  refLists w !! list = Some acc →
  refLists (run p w).2 !! list
  = Some (acc ++ (entryOwnerReference <$> nonFailedItems (firings list p w))).
Proof.
  revert w acc.
  induction p as [r | k IH | s k IH | cb v err k IH]; intros w acc Hacc; simpl.
  - rewrite app_nil_r. exact Hacc.
  - apply IH. exact Hacc.
  - apply IH. exact Hacc.
  - unfold mbind, Eff_bind.
    pose proof (callCallback_refLists list cb v err w acc Hacc) as Hcb.
    destruct (callCallback cb v err w) as [r w']. simpl in Hcb.
    rewrite (IH r w' _ Hcb). unfold nonFailedItems in *.
    rewrite omap_app, fmap_app, app_assoc. do 3 f_equal.
    destruct cb as [f | l]; [reflexivity |].
    destruct (decide (l = list)); reflexivity.
Qed.

(** ** The order of the calls *)

(** The operators of a forest in processing order: each parent, then its
    children in the order of the child list, entry after entry; nil
    operators are no calls. *)
Definition operatorsOf (entry : Entry) : list Operator :=
  omap id (entry.1 :: entry.2).

Definition applyOrderOf (entries : list Entry) : list Operator :=
  concat (operatorsOf <$> entries).

(** The operator and the result of each [Apply] among some calls. *)
Definition applied (evs : list Event) : list (Operator * option error) :=
  omap (λ ev, match ev with
              | EvApply opr _ _ result => Some (opr, result)
              | EvDelete _ _ _ _ => None
              end) evs.

(** The operator of each [Delete] among some calls. *)
Definition deleted (evs : list Event) : list Operator :=
  omap (λ ev, match ev with
              | EvDelete opr _ _ _ => Some opr
              | EvApply _ _ _ _ => None
              end) evs.

(** A run over the operators [expected] that stops at the first error: the
    calls made, with their results, and the error of the run. *)
Inductive sequential :
  list Operator → list (Operator * option error) → option error → Prop :=
| sequential_done : sequential [] [] None
| sequential_next opr expected obs r :
    sequential expected obs r →
    sequential (opr :: expected) ((opr, None) :: obs) r
| sequential_stop opr expected e :
    sequential (opr :: expected) [(opr, Some e)] (Some e).

Lemma sequential_app expected1 expected2 obs1 obs2 r :
  sequential expected1 obs1 None →
  sequential expected2 obs2 r →
  sequential (expected1 ++ expected2) (obs1 ++ obs2) r.
Proof.
  intros H1 H2. remember None as r1 eqn:Hr1.
  induction H1 as [| opr expected obs r1 H1 IH |]; simpl.
  - exact H2.
  - constructor. apply IH. exact Hr1.
  - discriminate.
Qed.

Lemma sequential_app_stop expected1 expected2 obs e :
  sequential expected1 obs (Some e) →
  sequential (expected1 ++ expected2) obs (Some e).
Proof.
  intros H1. remember (Some e) as r1 eqn:Hr1.
  induction H1 as [| opr expected obs r1 H1 IH |]; simpl.
  - discriminate.
  - constructor. apply IH. exact Hr1.
  - inversion Hr1; subst. constructor.
Qed.

Lemma sequential_prefix expected obs r :
  sequential expected obs r → obs.*1 `prefix_of` expected.
Proof.
  induction 1 as [| opr expected obs r _ IH |]; simpl.
  - reflexivity.
  - apply prefix_cons. exact IH.
  - apply prefix_cons. apply prefix_nil.
Qed.

Lemma sequential_complete expected obs :
  sequential expected obs None →
  obs.*1 = expected ∧ Forall (λ c, c.2 = None) obs.
Proof.
  intros H. remember None as r eqn:Hr.
  induction H as [| opr expected obs r _ IH |]; simpl.
  - split; constructor.
  - destruct (IH Hr) as [Hfst Hall]. subst r.
    split; [simpl; f_equal; exact Hfst |].
    constructor; [reflexivity | exact Hall].
  - discriminate.
Qed.

Lemma sequential_failed expected obs e :
  sequential expected obs (Some e) →
  ∃ obs0 opr, obs = obs0 ++ [(opr, Some e)] ∧ Forall (λ c, c.2 = None) obs0.
Proof.
  intros H. remember (Some e) as r eqn:Hr.
  induction H as [| opr expected obs r _ IH | opr expected e'].
  - discriminate.
  - destruct (IH Hr) as (obs0 & opr' & -> & Hall).
    exists ((opr, None) :: obs0), opr'. split; [reflexivity |].
    constructor; [reflexivity | exact Hall].
  - inversion Hr; subst. exists [], opr. split; [reflexivity | constructor].
Qed.

(** Every error among the calls of a run is the error of the run, and no
    call follows it. *)
Lemma sequential_error expected obs r obs1 opr e obs2 :
  sequential expected obs r →
  obs = obs1 ++ (opr, Some e) :: obs2 →
  obs2 = [] ∧ r = Some e.
Proof.
  intros H. revert obs1.
  induction H as [| opr' expected obs r _ IH | opr' expected e'];
    intros obs1 Heq.
  - destruct obs1; discriminate.
  - destruct obs1 as [| c obs1]; simpl in Heq; [discriminate |].
    inversion Heq; subst. eapply IH. reflexivity.
  - destruct obs1 as [| c obs1]; simpl in Heq.
    + inversion Heq; subst. split; reflexivity.
    + inversion Heq as [[Hc Hnil]]. destruct obs1; discriminate.
Qed.

(** A call of [Apply] made by [useOperator] with the given references. *)
Definition appliesWith (ctx : Context) (options : Options)
    (references : list OwnerReference) (ev : Event) : Prop :=
  ∃ opr callbacks result,
    ev = EvApply opr ctx (applyOptionsFor options references callbacks) result.

Definition isApply (ctx : Context) (options : Options) (ev : Event) : Prop :=
  ∃ references, appliesWith ctx options references ev.

Lemma useOperator_run ctx opr options references w :
  let '((refs, err), w') := useOperator ctx opr options references w in
  match opr with
  | None => w' = w ∧ err = None ∧ refs = []
  | Some o =>
      ∃ callbacks,
        calls w' = calls w
                   ++ [EvApply o ctx
                         (applyOptionsFor options references callbacks) err]
  end.
Proof.
  destruct opr as [o |]; [| rewrite useOperator_nil; auto].
  destruct (SetOwnerReferences options) eqn:Hset.
  - rewrite useOperator_harvesting by assumption.
    pose proof (run_calls
      (opApply o ctx
         (applyOptionsFor options references
            (ownerReferenceCallback (Callbacks_ options)
               (Some (length (refLists w)))))) (withCell w)) as Hc.
    destruct (run _ (withCell w)) as [err w1]. simpl in Hc.
    eexists. simpl. rewrite Hc. reflexivity.
  - rewrite useOperator_plain by assumption.
    pose proof (run_calls
      (opApply o ctx (applyOptionsFor options references (Callbacks_ options)))
      w) as Hc.
    destruct (run _ w) as [err w1]. simpl in Hc.
    eexists. simpl. rewrite Hc. reflexivity.
Qed.

Lemma manageChildren_run ctx options references children w :
  let '(r, w') := manageChildren ctx options references children w in
  ∃ evs,
    calls w' = calls w ++ evs
    ∧ Forall (appliesWith ctx options references) evs
    ∧ sequential (omap id children) (applied evs) r.
Proof.
  revert w. induction children as [| child children IH]; intros w; simpl.
  - exists []. rewrite app_nil_r. repeat split; constructor.
  - unfold mbind, Eff_bind.
    pose proof (useOperator_run ctx child options references w) as Hu.
    destruct (useOperator ctx child options references w) as [[refs err] w1].
    destruct child as [o |].
    + destruct Hu as [callbacks Hu]. destruct err as [e |].
      * eexists. split; [exact Hu | split].
        -- constructor; [| constructor]. eexists _, _, _. reflexivity.
        -- simpl. constructor.
      * specialize (IH w1).
        destruct (manageChildren ctx options references children w1) as [r w2].
        destruct IH as (evs & Hcalls & Hall & Hseq).
        eexists (_ :: evs). split; [| split].
        -- rewrite Hcalls, Hu, <- app_assoc. reflexivity.
        -- constructor; [| exact Hall]. eexists _, _, _. reflexivity.
        -- simpl. constructor. exact Hseq.
    + destruct Hu as (-> & -> & ->). simpl. apply IH.
Qed.

Lemma manageOperators_run ctx options entries w :
  let '(r, w') := manageOperators ctx options entries w in
  ∃ evs,
    calls w' = calls w ++ evs
    ∧ Forall (isApply ctx options) evs
    ∧ sequential (applyOrderOf entries) (applied evs) r.
Proof.
  revert w. induction entries as [| [parent children] entries IH]; intros w.
  - exists []. simpl. rewrite app_nil_r. repeat split; constructor.
  - cbn [manageOperators]. unfold mbind, Eff_bind.
    pose proof (useOperator_run ctx parent options [] w) as Hu.
    destruct (useOperator ctx parent options [] w) as [[refs err] w1].
    assert (∃ evs1,
              calls w1 = calls w ++ evs1
              ∧ Forall (isApply ctx options) evs1
              ∧ sequential (omap id [parent]) (applied evs1) err)
      as (evs1 & Hc1 & Hall1 & Hseq1).
    { destruct parent as [o |].
      - destruct Hu as [callbacks Hu]. eexists. split; [exact Hu | split].
        + constructor; [| constructor]. eexists _, _, _, _. reflexivity.
        + simpl. destruct err; repeat constructor.
      - destruct Hu as (-> & -> & ->). exists [].
        rewrite app_nil_r. repeat split; constructor. }
    assert (applyOrderOf ((parent, children) :: entries)
            = omap id [parent] ++ omap id children ++ applyOrderOf entries)
      as Horder by (destruct parent; reflexivity).
    destruct err as [e |].
    { unfold mret, Eff_ret. cbv beta iota. rewrite Horder.
      exists evs1. split; [exact Hc1 | split; [exact Hall1 |]].
      apply sequential_app_stop. exact Hseq1. }
    pose proof (manageChildren_run ctx options refs children w1) as Hch.
    destruct (manageChildren ctx options refs children w1) as [r2 w2].
    destruct Hch as (evs2 & Hc2 & Hall2 & Hseq2).
    assert (Forall (isApply ctx options) evs2) as Hall2'.
    { eapply Forall_impl; [exact Hall2 |]. intros ev H. eexists. exact H. }
    destruct r2 as [e |].
    { unfold mret, Eff_ret. cbv beta iota. rewrite Horder.
      exists (evs1 ++ evs2). split; [| split].
      - rewrite Hc2, Hc1, <- app_assoc. reflexivity.
      - apply Forall_app. split; assumption.
      - unfold applied. rewrite omap_app.
        apply sequential_app; [exact Hseq1 |].
        apply sequential_app_stop. exact Hseq2. }
    specialize (IH w2).
    destruct (manageOperators ctx options entries w2) as [r3 w3].
    destruct IH as (evs3 & Hc3 & Hall3 & Hseq3). rewrite Horder.
    exists (evs1 ++ evs2 ++ evs3). split; [| split].
    + rewrite Hc3, Hc2, Hc1, <- !app_assoc. reflexivity.
    + rewrite !Forall_app. auto.
    + unfold applied. rewrite !omap_app.
      apply sequential_app; [exact Hseq1 |].
      apply sequential_app; [exact Hseq2 | exact Hseq3].
Qed.

Lemma callsSince_app (w w' : World) (evs : list Event) :
  calls w' = calls w ++ evs → callsSince w w' = evs.
Proof. intros H. unfold callsSince. rewrite H. apply drop_app_length. Qed.

Lemma applyOrderOf_app (pre post : list Entry) :
  applyOrderOf (pre ++ post) = applyOrderOf pre ++ applyOrderOf post.
Proof. unfold applyOrderOf. rewrite fmap_app, concat_app. reflexivity. Qed.

(** A call that is followed by another call returned nil. *)
Lemma sequential_not_last expected obs r n c c' :
  sequential expected obs r →
  obs !! n = Some c → obs !! S n = Some c' →
  expected !! n = Some c.1 ∧ c.2 = None.
Proof.
  intros Hseq Hn HSn.
  pose proof (sequential_prefix _ _ _ Hseq) as [rest Hrest].
  split.
  - rewrite Hrest. apply lookup_app_l_Some. rewrite list_lookup_fmap, Hn.
    reflexivity.
  - destruct c as [opr [e |]]; [| reflexivity]. exfalso.
    pose proof (take_drop_middle _ _ _ Hn) as Hsplit.
    symmetry in Hsplit.
    destruct (sequential_error _ _ _ _ _ _ _ Hseq Hsplit) as [Hnil _].
    apply lookup_lt_Some in HSn.
    assert (length (drop (S n) obs) = 0) as Hlen by (rewrite Hnil; reflexivity).
    rewrite length_drop in Hlen. lia.
Qed.

(** C3. The calls of [manageOperators] over a forest are calls of [Apply]
    only; their operators are an initial part of the forest read in order,
    each parent followed by its children in the order of its child list;
    a call that returned an error is the last call and its error is the
    result, so that after a failing parent or child no later sibling and no
    further entry is processed; without an error the whole forest is
    processed; and whenever a child of a parent was applied, the Apply of
    that parent had returned nil before. *)
Theorem manageOperators_parent_before_children
    (ctx : Context) (options : Options) (entries : list Entry) (w : World) :
  let '(r, w') := manageOperators ctx options entries w in
  let evs := callsSince w w' in
  calls w' = calls w ++ evs
  ∧ Forall (isApply ctx options) evs
  ∧ (applied evs).*1 `prefix_of` applyOrderOf entries
  ∧ (∀ obs1 opr e obs2,
       applied evs = obs1 ++ (opr, Some e) :: obs2 →
       obs2 = [] ∧ r = Some e)
  ∧ (r = None → (applied evs).*1 = applyOrderOf entries)
  ∧ (∀ e, r = Some e →
       ∃ obs0 opr, applied evs = obs0 ++ [(opr, Some e)]
                   ∧ Forall (λ c, c.2 = None) obs0)
  ∧ (∀ pre parent children post i c,
       entries = pre ++ (Some parent, children) :: post →
       applied evs !! (length (applyOrderOf pre) + S i) = Some c →
       applied evs !! length (applyOrderOf pre) = Some (parent, None)).
Proof.
  pose proof (manageOperators_run ctx options entries w) as H.
  destruct (manageOperators ctx options entries w) as [r w'].
  destruct H as (evs & Hcalls & Hall & Hseq).
  rewrite (callsSince_app _ _ _ Hcalls). cbv zeta.
  split; [exact Hcalls | split; [exact Hall | split]].
  { eapply sequential_prefix. exact Hseq. }
  split.
  { intros obs1 opr e obs2 Heq. eapply sequential_error; eassumption. }
  split.
  { intros ->. apply sequential_complete in Hseq. apply Hseq. }
  split.
  { intros e ->. eapply sequential_failed. exact Hseq. }
  intros pre parent children post i c -> Hchild.
  set (n := length (applyOrderOf pre)) in *.
  assert (∃ cn, applied evs !! n = Some cn) as [cn Hn].
  { apply lookup_lt_is_Some_2. apply lookup_lt_Some in Hchild. lia. }
  assert (∃ cn', applied evs !! S n = Some cn') as [cn' HSn].
  { apply lookup_lt_is_Some_2. apply lookup_lt_Some in Hchild. lia. }
  destruct (sequential_not_last _ _ _ _ _ _ Hseq Hn HSn) as [Hop Hres].
  rewrite applyOrderOf_app in Hop.
  rewrite lookup_app_r in Hop by (subst n; lia).
  replace (n - length (applyOrderOf pre)) with 0 in Hop by (subst n; lia).
  simpl in Hop. inversion Hop as [Hp].
  rewrite Hn. destruct cn as [o res]. simpl in *. subst. reflexivity.
Qed.

(** ** Failure handling in [Do] *)

(** A call of [Delete] as [purgeParents] makes it. *)
Definition purges (options : Options) (ev : Event) (opr : Operator) : Prop :=
  ∃ result,
    ev = EvDelete opr context_Background
           {| delete_DeletionPropagation := DeletePropagationForeground;
              delete_Options :=
                {| opt_DryRun := getDryRunFlag (DryRun options);
                   opt_Callbacks := Callbacks_ options |} |}
           result.

Lemma purgeLoop_run deleteOptions keys w :
  let '(_, w') := purgeLoop deleteOptions keys w in
  ∃ evs,
    calls w' = calls w ++ evs
    ∧ Forall2 (λ ev opr, ∃ result,
                 ev = EvDelete opr context_Background deleteOptions result)
              evs (omap id keys).
Proof.
  revert w. induction keys as [| [opr |] keys IH]; intros w; simpl.
  - exists []. rewrite app_nil_r. split; constructor.
  - unfold mbind, Eff_bind, callDelete. unfold mbind, Eff_bind.
    pose proof (run_calls (opDelete opr context_Background deleteOptions) w)
      as Hc.
    destruct (run (opDelete opr context_Background deleteOptions) w)
      as [err w1]. simpl in Hc. simpl.
    specialize (IH (mkWorld (ops w1) (refLists w1)
                      (calls w1
                       ++ [EvDelete opr context_Background deleteOptions err]))).
    destruct (purgeLoop deleteOptions keys _) as [[] w2].
    destruct IH as (evs & Hcalls & Hall). simpl in Hcalls.
    eexists (_ :: evs). split.
    + rewrite Hcalls, Hc, <- app_assoc. reflexivity.
    + constructor; [eexists; reflexivity | exact Hall].
  - apply IH.
Qed.

Lemma purgeParents_run options entries w :
  let '(_, w') := purgeParents options entries w in
  ∃ evs,
    calls w' = calls w ++ evs
    ∧ Forall2 (purges options) evs (omap id entries.*1).
Proof. apply purgeLoop_run. Qed.

Lemma Do_unfold applyOrder purgeOrder ctx options w :
  Do applyOrder purgeOrder ctx options w
  = let '(r0, w0) := manageOperators ctx options applyOrder w in
    match r0 with
    | Some e =>
        if decide (OnError options = PurgeOnError)
        then (Some e, (purgeParents options purgeOrder w0).2)
        else (Some e, w0)
    | None => (None, w0)
    end.
Proof.
  unfold Do, mbind, Eff_bind.
  destruct (manageOperators ctx options applyOrder w) as [[e |] w0];
    [| reflexivity].
  destruct (decide (OnError options = PurgeOnError)); [| reflexivity].
  destruct (purgeParents options purgeOrder w0) as [[] w1]. reflexivity.
Qed.

Lemma Forall2_purges_deleted options evs oprs :
  Forall2 (purges options) evs oprs → deleted evs = oprs ∧ applied evs = [].
Proof.
  induction 1 as [| ev opr evs oprs [result ->] _ [IH1 IH2]]; simpl.
  - split; reflexivity.
  - split; [f_equal; exact IH1 | exact IH2].
Qed.

Lemma isApply_deleted ctx options evs :
  Forall (isApply ctx options) evs → deleted evs = [].
Proof.
  induction 1 as [| ev evs (refs & opr & cbs & res & ->) _ IH]; simpl.
  - reflexivity.
  - exact IH.
Qed.

Lemma applied_elem_of evs opr ctx opts result :
  EvApply opr ctx opts result ∈ evs → (opr, result) ∈ applied evs.
Proof.
  intros H. unfold applied. apply list_elem_of_omap.
  eexists. split; [exact H | reflexivity].
Qed.

(** The calls of [Do]: those of [manageOperators], then those of the purge. *)
Lemma Do_run applyOrder purgeOrder ctx options w :
  let '(r0, w0) := manageOperators ctx options applyOrder w in
  let '(r, w') := Do applyOrder purgeOrder ctx options w in
  ∃ evs dels,
    r = r0
    ∧ calls w0 = calls w ++ evs
    ∧ calls w' = calls w0 ++ dels
    ∧ Forall (isApply ctx options) evs
    ∧ sequential (applyOrderOf applyOrder) (applied evs) r0
    ∧ match r0 with
      | Some _ =>
          if decide (OnError options = PurgeOnError)
          then w' = (purgeParents options purgeOrder w0).2
               ∧ Forall2 (purges options) dels (omap id purgeOrder.*1)
          else w' = w0 ∧ dels = []
      | None => w' = w0 ∧ dels = []
      end.
Proof.
  rewrite Do_unfold.
  pose proof (manageOperators_run ctx options applyOrder w) as H.
  destruct (manageOperators ctx options applyOrder w) as [r0 w0].
  destruct H as (evs & Hcalls & Hall & Hseq).
  destruct r0 as [e |].
  - destruct (decide (OnError options = PurgeOnError)) as [Hp | Hp].
    + pose proof (purgeParents_run options purgeOrder w0) as Hpurge.
      destruct (purgeParents options purgeOrder w0) as [[] w1].
      destruct Hpurge as (dels & Hc1 & Hdels). simpl.
      exists evs, dels. auto 10.
    + exists evs, []. rewrite app_nil_r. auto 10.
  - exists evs, []. rewrite app_nil_r. auto 10.
Qed.

(** C2. [Do] returns what the walk over the forest returned: an error
    returned by the Apply of a parent or of a child is exactly the error
    [Do] returns. With [PurgeOnError] the purge runs after the failure,
    and what its calls of Delete return has no part in the result; with
    [StopOnError] nothing runs after the failure and [Do] calls no Delete. *)
Theorem Do_returns_the_original_error
    (applyOrder purgeOrder : list Entry) (ctx : Context) (options : Options)
    (w : World) :
  let '(r0, w0) := manageOperators ctx options applyOrder w in
  let '(r, w') := Do applyOrder purgeOrder ctx options w in
  r = r0
  ∧ (∀ opr c opts e,
       EvApply opr c opts (Some e) ∈ callsSince w w' → r = Some e)
  ∧ (∀ e, r = Some e →
       ∃ opr c opts, EvApply opr c opts (Some e) ∈ callsSince w w')
  ∧ (r0 ≠ None → OnError options = PurgeOnError →
       w' = (purgeParents options purgeOrder w0).2
       ∧ Forall2 (purges options) (callsSince w0 w') (omap id purgeOrder.*1))
  ∧ (OnError options = StopOnError →
       w' = w0 ∧ deleted (callsSince w w') = []).
Proof.
  pose proof (Do_run applyOrder purgeOrder ctx options w) as H.
  destruct (manageOperators ctx options applyOrder w) as [r0 w0].
  destruct (Do applyOrder purgeOrder ctx options w) as [r w'].
  destruct H as (evs & dels & -> & Hc0 & Hc1 & Hall & Hseq & Hcase).
  assert (callsSince w w' = evs ++ dels) as Hsince.
  { apply callsSince_app. rewrite Hc1, Hc0, <- app_assoc. reflexivity. }
  assert (applied dels = []) as Hdels.
  { destruct r0; [destruct (decide _) |];
      try (destruct Hcase as [_ ->]; reflexivity).
    destruct Hcase as [_ Hd]. apply Forall2_purges_deleted in Hd. apply Hd. }
  rewrite Hsince, (callsSince_app _ _ _ Hc1).
  split; [reflexivity | split; [| split; [| split]]].
  - intros opr c opts e Hin. apply applied_elem_of in Hin.
    unfold applied in Hin. rewrite omap_app in Hin.
    fold (applied evs) in Hin. fold (applied dels) in Hin.
    rewrite Hdels, app_nil_r in Hin.
    apply list_elem_of_split in Hin as (obs1 & obs2 & Hin).
    eapply sequential_error; eassumption.
  - intros e ->. apply sequential_failed in Hseq as (obs0 & opr & Hobs & _).
    assert ((opr, Some e) ∈ applied evs) as Hin.
    { rewrite Hobs. apply elem_of_app. right. apply list_elem_of_singleton.
      reflexivity. }
    apply list_elem_of_omap in Hin as (ev & Hev & Heq).
    destruct ev as [o c opts res | o c opts res]; [| discriminate].
    inversion Heq; subst. exists opr, c, opts.
    apply elem_of_app. left. exact Hev.
  - intros Hr0 Hp. destruct r0 as [e |]; [| contradiction].
    rewrite decide_True in Hcase by assumption. exact Hcase.
  - intros Hs. unfold deleted. rewrite omap_app.
    fold (deleted evs). rewrite (isApply_deleted _ _ _ Hall).
    assert (w' = w0 ∧ dels = []) as [-> ->].
    { destruct r0; [| exact Hcase].
      rewrite decide_False in Hcase by (rewrite Hs; discriminate).
      exact Hcase. }
    split; reflexivity.
Qed.

Lemma NoDup_key_id (keys : list (option Operator)) :
  NoDup (key_id <$> keys) → NoDup (opId <$> omap id keys).
Proof.
  induction keys as [| [opr |] keys IH]; simpl; intros Hnd.
  - constructor.
  - apply NoDup_cons in Hnd as [Hnotin Hnd]. apply NoDup_cons. split.
    + intros Hin. apply Hnotin.
      apply list_elem_of_fmap in Hin as (opr' & Hid & Hin).
      apply list_elem_of_omap in Hin as (key & Hkey & Heq).
      simpl in Heq. subst key.
      apply list_elem_of_fmap. exists (Some opr'). split; [| exact Hkey].
      simpl. rewrite Hid. reflexivity.
    + apply IH. exact Hnd.
  - apply NoDup_cons in Hnd as [_ Hnd]. apply IH. exact Hnd.
Qed.

(** C4. With [PurgeOnError], after a failure the calls of Delete are, in
    the order of the purge loop, one for each non-nil key of the forest: the
    operators deleted are the non-nil parents, each exactly once, and no
    other operator; every call passes [context.Background()], which is not
    cancelled, foreground propagation, the dry-run flags computed as for
    Apply and the callbacks of the caller as they were given; whatever the
    calls return, [Do] returns the error of the failure. *)
Theorem purgeParents_deletes_each_parent_once
    (m : manager) (applyOrder purgeOrder : list Entry) (ctx : Context)
    (options : Options) (w : World) :
  manager_wf m →
  range_of m purgeOrder →
  OnError options = PurgeOnError →
  let '(r0, w0) := manageOperators ctx options applyOrder w in
  let '(r, w') := Do applyOrder purgeOrder ctx options w in
  r0 ≠ None →
  Forall2 (purges options) (callsSince w0 w') (omap id purgeOrder.*1)
  ∧ deleted (callsSince w w') = omap id purgeOrder.*1
  ∧ deleted (callsSince w w') ≡ₚ omap id (operators m).*1
  ∧ NoDup (opId <$> deleted (callsSince w w'))
  ∧ context_cancelled context_Background = false
  ∧ Forall (λ ev, ∃ opr references callbacks result,
               ev = EvApply opr ctx
                      {| OwnerReferences := references;
                         apply_Options :=
                           {| opt_DryRun := getDryRunFlag (DryRun options);
                              opt_Callbacks := callbacks |} |}
                      result)
           (callsSince w w0)
  ∧ r = r0.
Proof.
  intros Hwf Hrange Hpurge.
  pose proof (Do_run applyOrder purgeOrder ctx options w) as H.
  destruct (manageOperators ctx options applyOrder w) as [r0 w0].
  destruct (Do applyOrder purgeOrder ctx options w) as [r w'].
  destruct H as (evs & dels & -> & Hc0 & Hc1 & Hall & Hseq & Hcase).
  intros Hr0. destruct r0 as [e |]; [| contradiction].
  rewrite decide_True in Hcase by assumption. destruct Hcase as [_ Hdels].
  assert (callsSince w w' = evs ++ dels) as Hsince.
  { apply callsSince_app. rewrite Hc1, Hc0, <- app_assoc. reflexivity. }
  assert (deleted (callsSince w w') = omap id purgeOrder.*1) as Hdeleted.
  { rewrite Hsince. unfold deleted. rewrite omap_app.
    fold (deleted evs). fold (deleted dels).
    rewrite (isApply_deleted _ _ _ Hall).
    apply Forall2_purges_deleted in Hdels. apply Hdels. }
  rewrite (callsSince_app _ _ _ Hc1), (callsSince_app _ _ _ Hc0), Hdeleted.
  split; [exact Hdels | split; [reflexivity | split; [| split]]].
  - unfold range_of in Hrange. rewrite Hrange. reflexivity.
  - apply NoDup_key_id. unfold manager_wf in Hwf, Hrange.
    rewrite Hrange. exact Hwf.
  - split; [reflexivity | split; [| reflexivity]].
    eapply Forall_impl; [exact Hall |].
    intros ev (refs & opr & cbs & res & ->). eexists _, _, _, _. reflexivity.
Qed.

(** ** Owner references handed to the children *)

Lemma manageOperators_app ctx options pre rest w :
  manageOperators ctx options (pre ++ rest) w
  = let '(r1, w1) := manageOperators ctx options pre w in
    match r1 with
    | Some e => (Some e, w1)
    | None => manageOperators ctx options rest w1
    end.
Proof.
  revert w. induction pre as [| [parent children] pre IH]; intros w.
  - reflexivity.
  - cbn [app manageOperators]. unfold mbind, Eff_bind.
    destruct (useOperator ctx parent options [] w) as [[refs [e |]] w1];
      [reflexivity |].
    destruct (manageChildren ctx options refs children w1) as [[e |] w2];
      [reflexivity |].
    apply IH.
Qed.

Lemma manageOperators_cons ctx options parent children rest w :
  manageOperators ctx options ((parent, children) :: rest) w
  = let '((references, err), w1) := useOperator ctx parent options [] w in
    match err with
    | Some e => (Some e, w1)
    | None =>
        let '(r2, w2) := manageChildren ctx options references children w1 in
        match r2 with
        | Some e => (Some e, w2)
        | None => manageOperators ctx options rest w2
        end
    end.
Proof.
  cbn [manageOperators]. unfold mbind, Eff_bind.
  destruct (useOperator ctx parent options [] w) as [[refs [e |]] w1];
    [reflexivity |].
  destruct (manageChildren ctx options refs children w1) as [[e |] w2];
    reflexivity.
Qed.

Lemma useOperator_references ctx opr options references w :
  (useOperator ctx (Some opr) options references w).1.1
  = if SetOwnerReferences options
    then
      let list := length (refLists w) in
      entryOwnerReference
        <$> nonFailedItems
              (firings list
                 (opApply opr ctx
                    (applyOptionsFor options references
                       (ownerReferenceCallback (Callbacks_ options)
                          (Some list))))
                 (withCell w))
    else [].
Proof.
  destruct (SetOwnerReferences options) eqn:Hset.
  - rewrite useOperator_harvesting by assumption. cbv zeta.
    set (list := length (refLists w)).
    set (p := opApply opr ctx _).
    pose proof (run_refLists list p (withCell w) []) as Hrefs.
    destruct (run p (withCell w)) as [err w1]. simpl in *.
    rewrite Hrefs; [reflexivity |].
    subst list. rewrite lookup_app_r, Nat.sub_diag by lia. reflexivity.
  - rewrite useOperator_plain by assumption.
    destruct (run _ w) as [err w1]. reflexivity.
Qed.

(** C1. At any entry of a forest that the walk reaches, the list the
    manager got back from the parent is what every child of the entry
    receives as its owner references. Without [SetOwnerReferences] that list
    is empty, whether the parent succeeded or not. With [SetOwnerReferences],
    when the Apply of the parent processed N items (the firings of the
    callback chain it was given), of which M have a non-failed status, the
    list has M references: the identity fields of the status entries of the
    non-failed items, in the order of the items. *)
Theorem children_receive_owner_references
    (ctx : Context) (options : Options) (pre : list Entry)
    (parent : option Operator) (children : list (option Operator))
    (post : list Entry) (w : World) :
  let '(r1, w1) := manageOperators ctx options pre w in
  let '((references, err), w2) := useOperator ctx parent options [] w1 in
  let '(r2, w3) := manageChildren ctx options references children w2 in
  r1 = None →
  manageOperators ctx options (pre ++ (parent, children) :: post) w
  = match err with
    | Some e => (Some e, w2)
    | None =>
        match r2 with
        | Some e => (Some e, w3)
        | None => manageOperators ctx options post w3
        end
    end
  ∧ Forall (appliesWith ctx options references) (callsSince w2 w3)
  ∧ sequential (omap id children) (applied (callsSince w2 w3)) r2
  ∧ (SetOwnerReferences options = false → references = [])
  ∧ (SetOwnerReferences options = true →
     ∀ opr, parent = Some opr →
       let list := length (refLists w1) in
       let items :=
         firings list
           (opApply opr ctx
              (applyOptionsFor options []
                 (ownerReferenceCallback (Callbacks_ options) (Some list))))
           (withCell w1) in
       references = entryOwnerReference <$> nonFailedItems items
       ∧ length references = length (nonFailedItems items)).
Proof.
  pose proof (manageOperators_app ctx options pre ((parent, children) :: post) w)
    as Happ.
  destruct (manageOperators ctx options pre w) as [r1 w1].
  pose proof (useOperator_references ctx) as Hrefs.
  pose proof (useOperator_run ctx parent options [] w1) as Hrun.
  rewrite manageOperators_cons in Happ.
  destruct (useOperator ctx parent options [] w1) as [[references err] w2]
    eqn:Huse.
  pose proof (manageChildren_run ctx options references children w2) as Hch.
  destruct (manageChildren ctx options references children w2) as [r2 w3].
  destruct Hch as (evs & Hcalls & Hall & Hseq).
  rewrite (callsSince_app _ _ _ Hcalls).
  intros ->. split; [| split; [exact Hall | split; [exact Hseq | split]]].
  - rewrite Happ. destruct err; [reflexivity |]. destruct r2; reflexivity.
  - intros Hset. destruct parent as [opr |].
    + specialize (Hrefs opr options [] w1). rewrite Huse, Hset in Hrefs.
      exact Hrefs.
    + destruct Hrun as (_ & _ & ->). reflexivity.
  - intros Hset opr -> list items.
    specialize (Hrefs opr options [] w1). rewrite Huse, Hset in Hrefs.
    simpl in Hrefs. subst references. split; [reflexivity |].
    rewrite length_fmap. reflexivity.
Qed.

(** ** Remote failures in the triggers operator *)

(** A callback that, given an error, returns nil or that same error. *)
Definition passesError (v : Value) (e : error) (cb : Callback) : Prop :=
  ∀ w, (callCallback cb v (Some e) w).1 = None
       ∨ (callCallback cb v (Some e) w).1 = Some e.

(** What [Apply] does before it reaches an item: the wipe, and the items in
    front of it. *)
Definition applyBefore (t : triggersOperator) (ctx : Context)
    (opts : ApplyOptions) (ownerID : string) (done : list Unstructured)
  : Script (option error) :=
  err ← wipeRemoved ctx (client t) (items t) ownerID (apply_Options opts);
  match err with
  | Some e => Ret (Some e)
  | None => applyItems t ctx opts ownerID done
  end.

Lemma run_fireCallbacks_error v e cbs w :
  ∃ e', (run (fireCallbacks v (Some e) cbs) w).1 = Some e'
        ∧ (Forall (passesError v e) cbs → e' = e).
Proof.
  revert w. induction cbs as [| cb cbs IH]; intros w; simpl.
  - exists e. split; reflexivity.
  - unfold mbind, Eff_bind.
    destruct (callCallback cb v (Some e) w) as [[e1 |] w1] eqn:Hcb.
    + exists e1. split; [reflexivity |]. intros Hall.
      apply Forall_cons in Hall as [Hpass _].
      specialize (Hpass w). rewrite Hcb in Hpass. simpl in Hpass.
      destruct Hpass; congruence.
    + destruct (IH w1) as (e' & Hrun & Hexact). exists e'.
      split; [exact Hrun |]. intros Hall.
      apply Forall_cons in Hall as [_ Hall]. auto.
Qed.

Lemma run_applyItems_app t ctx opts ownerID done rest w :
  run (applyItems t ctx opts ownerID (done ++ rest)) w
  = let '(r, w1) := run (applyItems t ctx opts ownerID done) w in
    match r with
    | Some e => (Some e, w1)
    | None => run (applyItems t ctx opts ownerID rest) w1
    end.
Proof.
  revert w. induction done as [| u done IH]; intros w.
  - reflexivity.
  - cbn [app applyItems]. rewrite !run_bind.
    destruct (run (applyItem t ctx opts ownerID u) w) as [[u' [e |]] w1];
      [reflexivity | apply IH].
Qed.

Lemma run_deleteItems_app t ctx opts done rest w :
  run (deleteItems t ctx opts (done ++ rest)) w
  = let '(r, w1) := run (deleteItems t ctx opts done) w in
    match r with
    | Some e => (Some e, w1)
    | None => run (deleteItems t ctx opts rest) w1
    end.
Proof.
  revert w. induction done as [| u done IH]; intros w.
  - reflexivity.
  - cbn [app deleteItems]. rewrite !run_bind.
    destruct (run (deleteItem t ctx opts u) w) as [[e |] w1];
      [reflexivity | apply IH].
Qed.

(** C5. When the remote call for an item returns an error, the operator
    returns an error: with no Post callback, or with Post callbacks that
    return nil or the error they were given, it is that error; otherwise it
    is the error of the first Post callback that objected. This holds for
    [Apply] (first part) and for [Delete] (second part), at any item that
    the loop reaches. *)
Theorem remote_failure_is_returned
    (t : triggersOperator) (ctx : Context) (done : list Unstructured)
    (u : Unstructured) (rest : list Unstructured) (w : World) :
  items t = done ++ u :: rest →
  (∀ opts ownerID,
     findOwnerID (OwnerReferences opts) = (ownerID, true) →
     let callbacks := opt_Callbacks (apply_Options opts) in
     let '(r0, w0) := run (applyBefore t ctx opts ownerID done) w in
     let '(u1, w1) := run (labelItem opts ownerID u) w0 in
     let '(preErr, w2) :=
       run (fireCallbacks (VUnstructured u1) None (Pre callbacks)) w1 in
     let '((new1, statusEntry, err), w3) :=
       run (applyObject ctx (client t) u1 (opt_DryRun (apply_Options opts)))
           w2 in
     r0 = None → preErr = None →
     ∀ e, err = Some e →
       ∃ e', (run (triggersOperator_Apply t ctx opts) w).1 = Some e'
             ∧ (Forall (passesError (VStatusEntry statusEntry) e)
                       (Post callbacks) → e' = e)
             ∧ (Post callbacks = [] → e' = e))
  ∧ (∀ opts,
       let callbacks := opt_Callbacks (delete_Options opts) in
       let '(r0, w0) := run (deleteItems t ctx opts done) w in
       let '(preErr, w1) :=
         run (fireCallbacks (VUnstructured u) None (Pre callbacks)) w0 in
       let '((state, err), w2) :=
         run (deleteObject ctx (client t) u opts) w1 in
       r0 = None → preErr = None →
       ∀ e, err = Some e →
         ∃ e', (run (triggersOperator_Delete t ctx opts) w).1 = Some e'
               ∧ (Forall (passesError (VStatusEntry state) e)
                         (Post callbacks) → e' = e)
               ∧ (Post callbacks = [] → e' = e)).
Proof.
  intros Hitems. split.
  - intros opts ownerID Hfind callbacks.
    unfold triggersOperator_Apply, applyBefore. rewrite Hfind. cbn [negb].
    rewrite !run_bind, Hitems.
    destruct (run (wipeRemoved ctx (client t) (done ++ u :: rest) ownerID
                     (apply_Options opts)) w) as [[e0 |] wa].
    { simpl. destruct (run (labelItem opts ownerID u) wa) as [u1 w1].
      destruct (run (fireCallbacks _ None _) w1) as [preErr w2].
      destruct (run (applyObject _ _ _ _) w2) as [[[new1 st] err] w3].
      discriminate. }
    rewrite run_applyItems_app.
    destruct (run (applyItems t ctx opts ownerID done) wa) as [r0 w0].
    cbn [applyItems]. unfold applyItem. rewrite !run_bind.
    destruct (run (labelItem opts ownerID u) w0) as [u1 w1].
    rewrite !run_bind. fold callbacks.
    destruct (run (fireCallbacks (VUnstructured u1) None (Pre callbacks)) w1)
      as [preErr w2].
    destruct (run (applyObject _ _ _ _) w2) as [[[new1 st] err] w3] eqn:Hrem.
    intros -> -> e ->. rewrite !run_bind, Hrem. rewrite !run_bind.
    destruct (run_fireCallbacks_error (VStatusEntry st) e (Post callbacks) w3)
      as (e' & Hfire & Hexact).
    destruct (run (fireCallbacks (VStatusEntry st) (Some e) (Post callbacks)) w3)
      as [r w4]. simpl in Hfire. subst r.
    exists e'. split; [reflexivity | split; [exact Hexact |]].
    intros Hnil. apply Hexact. rewrite Hnil. constructor.
  - intros opts callbacks.
    unfold triggersOperator_Delete. rewrite Hitems, run_deleteItems_app.
    destruct (run (deleteItems t ctx opts done) w) as [r0 w0].
    cbn [deleteItems]. unfold deleteItem. rewrite !run_bind. fold callbacks.
    destruct (run (fireCallbacks (VUnstructured u) None (Pre callbacks)) w0)
      as [preErr w1].
    destruct (run (deleteObject _ _ _ _) w1) as [[state err] w2] eqn:Hrem.
    intros -> -> e ->. rewrite !run_bind, Hrem.
    destruct (run_fireCallbacks_error (VStatusEntry state) e (Post callbacks) w2)
      as (e' & Hfire & Hexact).
    destruct (run (fireCallbacks (VStatusEntry state) (Some e) (Post callbacks)) w2)
      as [r w3]. simpl in Hfire. subst r.
    exists e'. split; [reflexivity | split; [exact Hexact |]].
    intros Hnil. apply Hexact. rewrite Hnil. constructor.
Qed.

(** * Further properties of the code *)

(** ** findOwnerID *)

(** [findOwnerID] reports an owner exactly when the list holds a reference
    of kind "Function", and then gives the UID of the first such reference;
    when it reports none, the identifier is the empty string. *)
Theorem findOwnerID_found_iff (refs : list OwnerReference) (uid : string) :
  (findOwnerID refs = (uid, true)
   ↔ ∃ pre ref post,
       refs = pre ++ ref :: post
       ∧ Forall (λ r, Kind r ≠ "Function") pre
       ∧ Kind ref = "Function"
       ∧ uid = UID ref)
  ∧ ((findOwnerID refs).2 = false ↔ Forall (λ r, Kind r ≠ "Function") refs)
  ∧ ((findOwnerID refs).2 = false → (findOwnerID refs).1 = "").
Proof.
  split; [| split].
  - split.
    + induction refs as [| r refs IH]; simpl; [discriminate |].
      destruct (decide (Kind r = "Function")) as [Hk | Hk].
      * intros Heq. inversion Heq; subst.
        exists [], r, refs. repeat split; [constructor | exact Hk].
      * intros Heq. destruct (IH Heq) as (pre & ref & post & -> & Hpre & Href & ->).
        exists (r :: pre), ref, post.
        repeat split; [constructor; assumption | exact Href].
    + intros (pre & ref & post & -> & Hpre & Href & ->).
      rewrite findOwnerID_skip by assumption. simpl.
      rewrite decide_True by assumption. reflexivity.
  - split.
    + induction refs as [| r refs IH]; simpl; [constructor |].
      destruct (decide (Kind r = "Function")) as [Hk | Hk]; [discriminate |].
      intros Hf. constructor; [exact Hk | apply IH; exact Hf].
    + intros Hall. rewrite findOwnerID_none by assumption. reflexivity.
  - induction refs as [| r refs IH]; simpl; [reflexivity |].
    destruct (decide (Kind r = "Function")); [discriminate | exact IH].
Qed.

(** ** mergeMap *)

(** [mergeMap] returns nil only when both maps are nil; a nil left map gives
    the right map and a nil right map gives the left map; the keys of the
    result are the keys of either map. *)
Theorem mergeMap_nil_and_keys (l r : option (gmap string string)) :
  (mergeMap l r = None ↔ l = None ∧ r = None)
  ∧ mergeMap None r = r
  ∧ mergeMap l None = l
  ∧ (∀ k, is_Some (label (mergeMap l r) k)
          ↔ is_Some (label l k) ∨ is_Some (label r k)).
Proof.
  split; [| split; [| split]].
  - destruct l, r; simpl; split; try discriminate; try tauto;
      intros [? ?]; discriminate.
  - reflexivity.
  - destruct l; reflexivity.
  - intros k. rewrite mergeMap_label.
    destruct (label r k) as [v |]; destruct (label l k) as [v' |];
      split; intros H; eauto; try (destruct H as [H | H]; exact H).
Qed.

Lemma map_fold_insert_subseteq (l r : gmap string string) :
  (∀ k v, r !! k = Some v → l !! k = Some v) →
  map_fold (λ k v l, <[k:=v]> l) l r = l.
Proof.
  intros Hsub. apply map_eq. intros k. rewrite map_fold_insert_lookup.
  destruct (r !! k) as [v |] eqn:Hk; [| reflexivity].
  symmetry. apply Hsub. exact Hk.
Qed.

(** Merging labels that the map already holds changes nothing; in
    particular merging the same labels a second time changes nothing. *)
Theorem mergeMap_idempotent (l r : option (gmap string string)) :
  ((∀ k v, label r k = Some v → label l k = Some v) →
   l ≠ None → mergeMap l r = l)
  ∧ mergeMap (mergeMap l r) r = mergeMap l r.
Proof.
  assert (∀ l' : option (gmap string string),
            (∀ k v, label r k = Some v → label l' k = Some v) →
            l' ≠ None → mergeMap l' r = l') as Hsub.
  { intros [lm |] Hin Hl; [| contradiction]. simpl.
    destruct r as [rm |]; [| reflexivity].
    f_equal. apply map_fold_insert_subseteq. exact Hin. }
  split; [apply Hsub |].
  destruct l as [lm |].
  - apply Hsub; [| destruct r; discriminate].
    intros k v Hk. rewrite mergeMap_label, Hk. reflexivity.
  - simpl. destruct r as [rm |]; [| reflexivity]. simpl.
    f_equal. apply map_fold_insert_subseteq. auto.
Qed.

(** ** What lines 38-42 of Apply write *)

(** The content the loop of [Apply] writes for an item whose content was
    [old]: the inherited owner references, the labels merged with the
    tracking label, the other fields as they were. *)
Definition labelled (opts : ApplyOptions) (ownerID : string) (old : Content)
  : Content :=
  {| metadata_labels :=
       mergeMap (metadata_labels old) (Some {[ message := ownerID ]});
     metadata_ownerReferences :=
       match OwnerReferences opts with
       | [] => None
       | references => Some references
       end;
     fields := fields old |}.

Lemma alter_app_new (f : Content → Content) (cs : list Content) (c : Content) :
  alter f (length cs) (cs ++ [c]) = cs ++ [f c].
Proof.
  induction cs as [| c' cs IH]; simpl; [reflexivity |].
  f_equal. exact IH.
Qed.

Lemma alter_alter_eq (f g : Content → Content) (cs : list Content) (l : nat) :
  alter f l (alter g l cs) = alter (f ∘ g) l cs.
Proof.
  revert l. induction cs as [| c cs IH]; intros [| l]; simpl;
    try reflexivity.
  f_equal. apply IH.
Qed.

Lemma run_labelItem_store (opts : ApplyOptions) (ownerID : string)
    (u : Unstructured) (w : World) :
  run (labelItem opts ownerID u) w
  = match Object u with
    | Some l =>
        (u, set_ops (mkOpState (alter (labelled opts ownerID) l
                                  (objects (ops w)))
                               (remote (ops w))) w)
    | None =>
        (mkUnstructured (Some (length (objects (ops w)))),
         set_ops (mkOpState (objects (ops w)
                             ++ [labelled opts ownerID content_empty])
                            (remote (ops w))) w)
    end.
Proof.
  destruct u as [[l |]]; unfold labelItem, labelled.
  - destruct (objects (ops w) !! l) as [c |] eqn:Hc.
    + destruct (OwnerReferences opts) as [| ref refs]; cbn;
        unfold readObject; cbn; rewrite list_lookup_alter_eq, Hc; cbn;
        (destruct (metadata_labels c) as [m |] eqn:Hm; cbn;
         unfold mret, Eff_ret, set_ops; cbn; do 3 f_equal;
         rewrite alter_alter_eq;
         (apply list_alter_ext; [| reflexivity]);
         intros c' Hc'; rewrite Hc in Hc'; inversion Hc'; subst c';
         cbn; rewrite Hm; reflexivity).
    + assert (∀ f : Content → Content,
                alter f l (objects (ops w)) = objects (ops w)) as Hid.
      { intros f. apply list_eq. intros i. rewrite list_lookup_alter.
        destruct (decide (l = i)) as [<- |]; [rewrite Hc |]; reflexivity. }
      destruct (OwnerReferences opts) as [| ref refs]; cbn;
        unfold readObject; cbn; rewrite !Hid, Hc; cbn;
        unfold mret, Eff_ret, set_ops; cbn; rewrite !Hid; reflexivity.
  - destruct (OwnerReferences opts) as [| ref refs]; cbn;
      unfold readObject, mret, Eff_ret, set_ops; cbn.
    + rewrite alter_app_new. reflexivity.
    + rewrite alter_app_new. cbn.
      rewrite lookup_app_r, Nat.sub_diag by lia. cbn.
      rewrite alter_app_new. reflexivity.
Qed.

Lemma labelled_idempotent (opts : ApplyOptions) (ownerID : string)
    (c : Content) :
  labelled opts ownerID (labelled opts ownerID c) = labelled opts ownerID c.
Proof.
  unfold labelled. cbn [metadata_labels fields]. f_equal.
  apply (mergeMap_idempotent (metadata_labels c)).
Qed.

(** Lines 38-42 of [Apply] on an item: its object afterwards holds the
    inherited owner references, the merged labels and its other fields
    unchanged. An item that has a map is updated in place, so the element of
    [t.items], which shares the map, shows the change; for an item whose map
    is nil the content goes to a new map that only the loop variable refers
    to. No other object, no part of the remote state and no callback is
    touched. *)
Theorem labelItem_writes_item
    (opts : ApplyOptions) (ownerID : string) (u : Unstructured) (w : World) :
  allocated (ops w) u →
  let '(u', w') := run (labelItem opts ownerID u) w in
  readObject (ops w') u'
  = Some (labelled opts ownerID
            (default content_empty (readObject (ops w) u)))
  ∧ Object u' ≠ None
  ∧ (Object u ≠ None → u' = u)
  ∧ (Object u = None → readObject (ops w') u = None)
  ∧ (∀ l c, Object u ≠ Some l →
            objects (ops w) !! l = Some c → objects (ops w') !! l = Some c)
  ∧ remote (ops w') = remote (ops w)
  ∧ refLists w' = refLists w
  ∧ calls w' = calls w.
Proof.
  intros Halloc. rewrite run_labelItem_store.
  destruct u as [[l |]]; unfold allocated in Halloc; cbn in *.
  - destruct (lookup_lt_is_Some_2 _ _ Halloc) as [c Hc].
    unfold readObject. cbn. rewrite list_lookup_alter_eq, Hc. cbn.
    split; [reflexivity |]. split; [discriminate |].
    split; [reflexivity |]. split; [discriminate |].
    split; [| auto].
    intros l' c' Hne Hl'. rewrite list_lookup_alter_ne by congruence.
    exact Hl'.
  - unfold readObject. cbn.
    rewrite lookup_app_r, Nat.sub_diag by lia. cbn.
    split; [reflexivity |]. split; [discriminate |].
    split; [congruence |]. split; [reflexivity |].
    split; [| auto].
    intros l' c' _ Hl'. apply lookup_app_l_Some. exact Hl'.
Qed.

(** Writing the owner references and the tracking label a second time,
    with the same options and owner, changes nothing. *)
Theorem labelItem_idempotent
    (opts : ApplyOptions) (ownerID : string) (u : Unstructured) (w : World) :
  let '(u1, w1) := run (labelItem opts ownerID u) w in
  run (labelItem opts ownerID u1) w1 = (u1, w1).
Proof.
  rewrite run_labelItem_store.
  destruct u as [[l |]]; cbn [Object]; rewrite run_labelItem_store;
    cbn [Object]; unfold set_ops; cbn; do 3 f_equal.
  - rewrite alter_alter_eq. apply list_alter_ext; [| reflexivity].
    intros c _. apply labelled_idempotent.
  - rewrite alter_app_new, labelled_idempotent. reflexivity.
Qed.

End Hydroform.

Arguments Ret {Ext R} r.
Arguments Get {Ext R} k.
Arguments Put {Ext R} s k.
Arguments Fire {Ext R} cb v err k.

(** * A concrete forest

    The remote store is a journal of the requests it received; a function
    is the parent, its triggers are the child. *)

Definition ex_function : PostStatusEntry :=
  {| entryStatusType := StatusTypeApplied;
     GetAPIVersion := "serverless.kyma-project.io/v1alpha1";
     GetKind := "Function"; GetName := "a"; GetUID := "u1" |}.

Definition ex_failed : PostStatusEntry :=
  {| entryStatusType := StatusTypeApplyFailed;
     GetAPIVersion := "v1"; GetKind := "ConfigMap"; GetName := "b";
     GetUID := "" |}.

Definition ex_owner : OwnerReference :=
  {| APIVersion := "serverless.kyma-project.io/v1alpha1";
     Kind := "Function"; Name := "a"; UID := "u1" |}.

Definition ex_trigger : Content :=
  {| metadata_labels := Some {[ "app" := "demo" ]};
     metadata_ownerReferences := None;
     fields := {[ "spec.subscriber" := "a" ]} |}.

Definition ex_served : Content :=
  {| metadata_labels := Some {[ "app" := "demo"; "ownerID" := "u1" ]};
     metadata_ownerReferences := Some [ex_owner];
     fields := {[ "spec.subscriber" := "a";
                  "metadata.resourceVersion" := "42" ]} |}.

Definition ex_request (what : string) : Script (Ext := list string) unit :=
  Get (λ s, Put (mkOpState (objects s) (remote s ++ [what])) (Ret tt)).

Definition ex_wipeRemoved (ctx : Context) (c : unit)
    (us : list Unstructured) (ownerID : string)
    (options : OperatorOptions (Ext := list string))
  : Script (option error) :=
  _ ← ex_request "list"; Ret None.

(** The remote apply answers with an object of its own. *)
Definition ex_applyObject (ctx : Context) (c : unit) (u : Unstructured)
    (dryRun : list string)
  : Script (Ext := list string)
      (Unstructured * PostStatusEntry * option error) :=
  _ ← ex_request "apply";
  Get (λ s,
    Put (mkOpState (objects s ++ [ex_served]) (remote s))
      (Ret (mkUnstructured (Some (length (objects s))),
            {| entryStatusType := StatusTypeApplied;
               GetAPIVersion := "eventing.knative.dev/v1alpha1";
               GetKind := "Trigger"; GetName := "t"; GetUID := "u2" |},
            None))).

Definition ex_refused : error := errors_New "connection refused".

Definition ex_applyObject_failing (ctx : Context) (c : unit)
    (u : Unstructured) (dryRun : list string)
  : Script (Ext := list string)
      (Unstructured * PostStatusEntry * option error) :=
  _ ← ex_request "apply";
  Ret (u, ex_failed, Some ex_refused).

Definition ex_deleteObject_failing (ctx : Context) (c : unit)
    (u : Unstructured) (opts : DeleteOptions (Ext := list string))
  : Script (PostStatusEntry * option error) :=
  _ ← ex_request "delete";
  Ret ({| entryStatusType := StatusTypeDeleteFailed;
          GetAPIVersion := "eventing.knative.dev/v1alpha1";
          GetKind := "Trigger"; GetName := "t"; GetUID := "u2" |},
       Some ex_refused).

Definition ex_triggers : triggersOperator :=
  {| items := [mkUnstructured (Some 0)]; client := tt |}.

(** A parent that applies two items, the second of which fails without an
    error of the call, and reports each to the Post callbacks. *)
Definition ex_parent : Operator (Ext := list string) :=
  {| opId := 1;
     opApply := λ ctx opts,
       err ← fireCallbacks (VStatusEntry ex_function) None
               (Post (opt_Callbacks (apply_Options opts)));
       match err with
       | Some e => Ret (Some e)
       | None => fireCallbacks (VStatusEntry ex_failed) None
                   (Post (opt_Callbacks (apply_Options opts)))
       end;
     opDelete := λ ctx opts,
       _ ← ex_request "delete"; Ret (Some (errors_New "delete timed out")) |}.

Definition ex_child : Operator (Ext := list string) :=
  {| opId := 2;
     opApply := triggersOperator_Apply ex_wipeRemoved ex_applyObject ex_triggers;
     opDelete := triggersOperator_Delete ex_deleteObject_failing ex_triggers |}.

Definition ex_child_failing : Operator (Ext := list string) :=
  {| opId := 3;
     opApply :=
       triggersOperator_Apply ex_wipeRemoved ex_applyObject_failing ex_triggers;
     opDelete := triggersOperator_Delete ex_deleteObject_failing ex_triggers |}.

Definition ex_options (onError : OnErrorPolicy) : Options (Ext := list string) :=
  {| Callbacks_ := mkCallbacks [] []; OnError := onError; DryRun := true;
     SetOwnerReferences := true |}.

Definition ex_world : World (Ext := list string) :=
  mkWorld (mkOpState [ex_trigger] []) [] [].

Definition ex_ctx : Context := context_WithCancel context_Background false.

Definition ex_forest : list (option Operator * list (option Operator)) :=
  [(Some ex_parent, [Some ex_child; None; Some ex_child_failing; Some ex_child])].


(** * The properties at the concrete forest *)

Lemma findOwnerID_first_Function_witness :
  let pre := [ {| APIVersion := "v1"; Kind := "function"; Name := "x";
                  UID := "u7" |};
               {| APIVersion := "v1"; Kind := "Service"; Name := "y";
                  UID := "u8" |} ] in
  let post := [ {| APIVersion := "v1"; Kind := "Function"; Name := "z";
                   UID := "u9" |} ] in
  Forall (λ r, Kind r ≠ "Function") pre
  ∧ Kind ex_owner = "Function"
  ∧ findOwnerID (pre ++ ex_owner :: post) = ("u1", true).
Proof.
  intros pre post.
  assert (Forall (λ r, Kind r ≠ "Function") pre) as Hpre
    by (repeat constructor; discriminate).
  split; [exact Hpre | split; [reflexivity |]].
  exact (proj1 (findOwnerID_first_Function (Ext := list string)
                  ex_wipeRemoved ex_applyObject pre ex_owner post
                  Hpre eq_refl)).
Defined.

Lemma Apply_no_Function_owner_not_found_witness :
  Forall (λ r, Kind r ≠ "Function") ([] : list OwnerReference)
  ∧ run (triggersOperator_Apply ex_wipeRemoved ex_applyObject ex_triggers
           ex_ctx
           (mkApplyOptions [] (mkOperatorOptions [] (mkCallbacks [] []))))
        ex_world
    = (Some (errors_Wrap errNotFound message), ex_world).
Proof.
  split; [constructor |].
  apply (Apply_no_Function_owner_not_found ex_wipeRemoved ex_applyObject []
           (List.Forall_nil _) ex_triggers ex_ctx
           (mkOperatorOptions [] (mkCallbacks [] []))).
Defined.

Lemma mergeMap_desired_overwrites_witness :
  let existing : option (gmap string string) :=
    Some {[ "app" := "demo"; "ownerID" := "stale" ]} in
  let desired : option (gmap string string) := Some {[ "ownerID" := "u1" ]} in
  label desired "ownerID" = Some "u1"
  ∧ label desired "app" = None
  ∧ label (mergeMap existing desired) "ownerID" = Some "u1"
  ∧ label (mergeMap existing desired) "app" = Some "demo".
Proof.
  intros existing desired.
  destruct (mergeMap_desired_overwrites (Ext := list string) existing desired)
    as (Hdesired & Hexisting & _).
  split; [reflexivity | split; [reflexivity | split]].
  - apply Hdesired. reflexivity.
  - rewrite Hexisting by reflexivity. reflexivity.
Defined.

Lemma ownerReferenceCallback_harvest_witness :
  refLists (withCell ex_world) !! 0 = Some []
  ∧ callCallback (OwnerRefCb 0) (VStatusEntry ex_function) None
      (withCell ex_world)
    = (None, mkWorld (ops ex_world) [[ex_owner]] [])
  ∧ callCallback (OwnerRefCb 0) (VStatusEntry ex_failed) None
      (withCell ex_world)
    = (None, withCell ex_world)
  ∧ callCallback (OwnerRefCb 0) (VOther "a string") (Some ex_refused)
      (withCell ex_world)
    = (Some (errors_New "can't parse interface{} to StatusEntry interface"),
       withCell ex_world).
Proof.
  split; [reflexivity | split; [| split]].
  - apply (proj1 (proj2 (proj2
             (ownerReferenceCallback_harvest 0 (VStatusEntry ex_function) None
                (withCell ex_world))))
             ex_function []); (reflexivity || discriminate).
  - apply (proj1 (ownerReferenceCallback_harvest 0 (VStatusEntry ex_failed)
                    None (withCell ex_world)) ex_failed eq_refl).
    right. left. reflexivity.
  - apply (proj1 (proj2 (ownerReferenceCallback_harvest 0 (VOther "a string")
                           (Some ex_refused) (withCell ex_world)))).
    discriminate.
Defined.

Lemma children_receive_owner_references_witness :
  let options := ex_options StopOnError in
  (manageOperators ex_ctx options [] ex_world).1 = None
  ∧ SetOwnerReferences options = true
  ∧ (useOperator ex_ctx (Some ex_parent) options [] ex_world).1.1 = [ex_owner]
  ∧ Forall (appliesWith ex_ctx options [ex_owner])
      (callsSince
         (useOperator ex_ctx (Some ex_parent) options [] ex_world).2
         (manageChildren ex_ctx options [ex_owner] [Some ex_child]
            (useOperator ex_ctx (Some ex_parent) options [] ex_world).2).2).
Proof.
  intros options. split; [reflexivity | split; [reflexivity |]].
  pose proof (children_receive_owner_references ex_ctx options []
                (Some ex_parent) [Some ex_child] [] ex_world) as H.
  rewrite (surjective_pairing (manageOperators ex_ctx options [] ex_world)) in H.
  cbv beta iota zeta in H.
  change (manageOperators ex_ctx options [] ex_world).2 with ex_world in H.
  rewrite (surjective_pairing
             (useOperator ex_ctx (Some ex_parent) options [] ex_world)) in H.
  cbv beta iota zeta in H.
  rewrite (surjective_pairing
             (useOperator ex_ctx (Some ex_parent) options [] ex_world).1) in H.
  cbv beta iota zeta in H.
  change (useOperator ex_ctx (Some ex_parent) options [] ex_world).1.1
    with [ex_owner] in H.
  rewrite (surjective_pairing
             (manageChildren ex_ctx options [ex_owner] [Some ex_child]
                (useOperator ex_ctx (Some ex_parent) options [] ex_world).2))
    in H.
  cbv beta iota zeta in H.
  destruct (H eq_refl) as (_ & Hall & _).
  split; [reflexivity | exact Hall].
Defined.

Lemma manageOperators_parent_before_children_witness :
  let options := ex_options StopOnError in
  let run1 := manageOperators ex_ctx options ex_forest ex_world in
  run1.1 = Some ex_refused
  ∧ opId <$> (applied (callsSince ex_world run1.2)).*1 = [1; 2; 3]
  ∧ ∃ obs0 opr,
      applied (callsSince ex_world run1.2) = obs0 ++ [(opr, Some ex_refused)]
      ∧ Forall (λ c, c.2 = None) obs0.
Proof.
  intros options run1.
  pose proof (manageOperators_parent_before_children ex_ctx options ex_forest
                ex_world) as H.
  fold run1 in H. rewrite (surjective_pairing run1) in H.
  cbv beta iota zeta in H.
  destruct H as (_ & _ & _ & _ & _ & H & _).
  split; [reflexivity | split; [reflexivity |]].
  apply H. reflexivity.
Defined.

Lemma Do_returns_the_original_error_witness :
  let options := ex_options PurgeOnError in
  let walk := manageOperators ex_ctx options ex_forest ex_world in
  let run1 := Do ex_forest ex_forest ex_ctx options ex_world in
  walk.1 ≠ None
  ∧ OnError options = PurgeOnError
  ∧ walk.1 = Some ex_refused
  ∧ run1.1 = walk.1
  ∧ Forall2 (purges options) (callsSince walk.2 run1.2) [ex_parent].
Proof.
  intros options walk run1.
  pose proof (Do_returns_the_original_error ex_forest ex_forest ex_ctx options
                ex_world) as H.
  fold walk in H. fold run1 in H.
  rewrite (surjective_pairing walk), (surjective_pairing run1) in H.
  cbv beta iota zeta in H.
  destruct H as (Hsame & _ & _ & Hpurge & _).
  assert (walk.1 ≠ None) as Hfailed by discriminate.
  split; [exact Hfailed | split; [reflexivity | split; [reflexivity |]]].
  split; [exact Hsame |].
  exact (proj2 (Hpurge Hfailed eq_refl)).
Defined.

Lemma purgeParents_deletes_each_parent_once_witness :
  let options := ex_options PurgeOnError in
  let m := mkManager ex_forest in
  let walk := manageOperators ex_ctx options ex_forest ex_world in
  let run1 := Do ex_forest ex_forest ex_ctx options ex_world in
  manager_wf m
  ∧ range_of m ex_forest
  ∧ OnError options = PurgeOnError
  ∧ walk.1 ≠ None
  ∧ deleted (callsSince ex_world run1.2) = [ex_parent]
  ∧ run1.1 = walk.1.
Proof.
  intros options m walk run1.
  assert (manager_wf m) as Hwf by apply NoDup_singleton.
  assert (range_of m ex_forest) as Hrange by (unfold range_of; reflexivity).
  assert (walk.1 ≠ None) as Hfailed by discriminate.
  pose proof (purgeParents_deletes_each_parent_once m ex_forest ex_forest
                ex_ctx options ex_world Hwf Hrange eq_refl) as H.
  fold walk in H. fold run1 in H.
  rewrite (surjective_pairing walk), (surjective_pairing run1) in H.
  cbv beta iota zeta in H.
  destruct (H Hfailed) as (_ & Hdeleted & _ & _ & _ & _ & Hsame).
  split; [exact Hwf | split; [exact Hrange | split; [reflexivity |]]].
  split; [exact Hfailed | split; [exact Hdeleted | exact Hsame]].
Defined.

Lemma remote_failure_is_returned_witness :
  let u := mkUnstructured (Some 0) in
  let applyOpts : ApplyOptions (Ext := list string) :=
    mkApplyOptions [ex_owner] (mkOperatorOptions [] (mkCallbacks [] [])) in
  let deleteOpts : DeleteOptions (Ext := list string) :=
    mkDeleteOptions DeletePropagationForeground
      (mkOperatorOptions [] (mkCallbacks [] [])) in
  items ex_triggers = [] ++ u :: []
  ∧ findOwnerID (OwnerReferences applyOpts) = ("u1", true)
  ∧ (run (triggersOperator_Apply ex_wipeRemoved ex_applyObject_failing
            ex_triggers ex_ctx applyOpts) ex_world).1 = Some ex_refused
  ∧ (run (triggersOperator_Delete ex_deleteObject_failing ex_triggers ex_ctx
            deleteOpts) ex_world).1 = Some ex_refused.
Proof.
  intros u applyOpts deleteOpts.
  destruct (remote_failure_is_returned ex_wipeRemoved ex_applyObject_failing
              ex_deleteObject_failing ex_triggers ex_ctx [] u [] ex_world
              eq_refl) as [HApply HDelete].
  specialize (HApply applyOpts "u1" eq_refl).
  specialize (HDelete deleteOpts).
  vm_compute in HApply, HDelete.
  destruct (HApply eq_refl eq_refl _ eq_refl) as (e1 & Hrun1 & _ & Hexact1).
  destruct (HDelete eq_refl eq_refl _ eq_refl) as (e2 & Hrun2 & _ & Hexact2).
  rewrite (Hexact1 eq_refl) in Hrun1. rewrite (Hexact2 eq_refl) in Hrun2.
  split; [reflexivity | split; [reflexivity | split]].
  - exact Hrun1.
  - exact Hrun2.
Defined.

(** C8. A successful [Apply] over one trigger whose remote apply answers
    with its own content (carrying a resourceVersion). The loop variable is
    rebound to the answer, but the element of the item list still refers to
    the object it referred to before, whose content is the one written
    locally (owner references and tracking label), not the answer of the
    server. *)
Theorem Apply_keeps_the_local_content_of_items :
  let opts : ApplyOptions (Ext := list string) :=
    mkApplyOptions [ex_owner] (mkOperatorOptions [] (mkCallbacks [] [])) in
  let apply :=
    run (triggersOperator_Apply ex_wipeRemoved ex_applyObject ex_triggers
           ex_ctx opts) ex_world in
  let iteration :=
    run (applyItem ex_applyObject ex_triggers ex_ctx opts "u1"
           (mkUnstructured (Some 0))) ex_world in
  apply.1 = None
  ∧ iteration.1 = (mkUnstructured (Some 1), None)
  ∧ objects (ops apply.2) !! 1 = Some ex_served
  ∧ items ex_triggers = [mkUnstructured (Some 0)]
  ∧ readObject (ops apply.2) (mkUnstructured (Some 0))
    = Some {| metadata_labels := Some {[ "app" := "demo"; "ownerID" := "u1" ]};
              metadata_ownerReferences := Some [ex_owner];
              fields := {[ "spec.subscriber" := "a" ]} |}
  ∧ (readObject (ops apply.2) (mkUnstructured (Some 0))
       ≫= λ c, fields c !! "metadata.resourceVersion") = None
  ∧ fields ex_served !! "metadata.resourceVersion" = Some "42".
Proof.
  vm_compute. repeat split; reflexivity.
Qed.
